(** * play_motion: the approach planner

    A shallow embedding of [play_motion/src/approach_planner.cpp]: the
    computation of an approach trajectory from the current joint configuration
    to the first waypoint of a motion, and its combination with the motion.

    Conventions of the embedding.
    - A C++ [double] is a binary64 float ([PrimFloat.float]); arithmetic and
      comparisons are the IEEE ones, specified by [FloatAxioms].
    - [std::vector<T>] is [list T]; [std::string] is [string].
    - A read or write of a vector outside its bounds, [front()] or [back()]
      of an empty vector and a cast of a non-finite double to an integer are
      undefined in C++: the model stops with a [fault] there.
    - [time_from_start] is the number of nanoseconds that [rclcpp::Duration]
      holds, an integer; the ranges of the message fields (int32 seconds,
      uint32 nanoseconds) and of the int64 counter are not modelled.
    - The MoveIt move groups are external: their answers are given by an
      oracle that reads the calls made so far, and every call is recorded
      with its answer in an event log.
    - Logging is not modelled, but for the two functions that list names
      for the messages.
    - The source file also holds the simulated hardware [RRBotSystem] and
      the controller client [MoveJointGroup]. What they call outside the
      file is given as an argument: [configure_default] of the base class,
      the answer of the action server to [isServerConnected] and the value
      of the parameter [joints]. The goals sent through the action client
      are recorded in the object. The bounds of [ros::Duration] are not
      modelled. *)

From Stdlib Require Import ZArith List String Ascii Bool Lia PeanoNat Floats.
From Stdlib Require Import Sorted OrderedTypeEx Permutation.
Import ListNotations.

Local Open Scope string_scope.
Local Open Scope Z_scope.
Local Open Scope list_scope.

(** ** Undefined behaviour and exceptions *)

Inductive fault : Type :=
| OutOfRange      (* vector access outside the bounds, front/back of an empty vector *)
| BadCast         (* cast of a NaN or of an infinity to an integer *)
| RuntimeError.   (* std::runtime_error thrown by the constructor *)

Inductive outcome (A : Type) : Type :=
| Ret (a : A)
| Fault (f : fault).

Arguments Ret {A} a.
Arguments Fault {A} f.

Definition bind {A B : Type} (m : outcome A) (k : A -> outcome B) : outcome B :=
  match m with
  | Ret a => k a
  | Fault f => Fault f
  end.

Notation "x <- m ;; k" := (bind m (fun x => k))
  (at level 61, m at next level, right associativity).
Notation "' pat <- m ;; k" := (bind m (fun x => match x with pat => k end))
  (at level 61, pat pattern, m at next level, right associativity).

(** ** The parts of the C++ standard library that the planner uses *)

Module Std.

Section Vectors.
Context {A : Type}.

(** [v[i]] as an rvalue. *)
Definition at_ (v : list A) (i : nat) : outcome A :=
  match nth_error v i with
  | Some a => Ret a
  | None => Fault OutOfRange
  end.

(** [v[i] = a]. *)
Fixpoint assign (v : list A) (i : nat) (a : A) : outcome (list A) :=
  match v, i with
  | [], _ => Fault OutOfRange
  | _ :: v', O => Ret (a :: v')
  | x :: v', S i' => v'' <- assign v' i' a ;; Ret (x :: v'')
  end.

Definition front (v : list A) : outcome A := at_ v 0.

Definition back (v : list A) : outcome A :=
  match v with
  | [] => Fault OutOfRange
  | x :: v' => Ret (last v' x)
  end.

(** [v.pop_back()]. *)
Definition pop_back (v : list A) : outcome (list A) :=
  match v with
  | [] => Fault OutOfRange
  | _ :: _ => Ret (removelast v)
  end.

Definition push_back (v : list A) (a : A) : list A := v ++ [a].

(** [v.resize(n, a)]. *)
Definition resize (v : list A) (n : nat) (a : A) : list A :=
  firstn n v ++ repeat a (n - List.length v).

Definition empty (v : list A) : bool :=
  match v with
  | [] => true
  | _ :: _ => false
  end.
End Vectors.

(** [std::find(v.begin(), v.end(), x)], as the distance from [v.begin()];
    [None] stands for [v.end()]. *)
Fixpoint find (v : list string) (x : string) : option nat :=
  match v with
  | [] => None
  | y :: v' => if String.eqb y x then Some O
               else option_map S (find v' x)
  end.

(** [std::sort] on strings ordered by [operator<]. The order is total and
    equal strings cannot be told apart, so every sorting algorithm returns
    the same vector; insertion sort stands for it. *)
Fixpoint insert (x : string) (v : list string) : list string :=
  match v with
  | [] => [x]
  | y :: v' => if String.ltb y x then y :: insert x v' else x :: v
  end.

Fixpoint sort (v : list string) : list string :=
  match v with
  | [] => []
  | x :: v' => insert x (sort v')
  end.

(** [std::includes(v1.begin(), v1.end(), v2.begin(), v2.end())] on sorted
    ranges. With [x] the element at [first1] and [y] the one at [first2]:
<<
    for (; first2 != last2; ++first1) {
      if (first1 == last1 || y < x) return false;
      if (!(x < y)) ++first2;
    }
    return true;
>> *)
Fixpoint includes (v1 v2 : list string) {struct v1} : bool :=
  match v2 with
  | [] => true
  | y :: v2' =>
      match v1 with
      | [] => false
      | x :: v1' =>
          if String.ltb y x then false
          else if String.ltb x y then includes v1' v2
               else includes v1' v2'
      end
  end.

(** [std::max(a, b)] on doubles: [(a < b) ? b : a]. *)
Definition max (a b : float) : float :=
  if PrimFloat.ltb a b then b else a.

(** [for (unsigned int i = first; i < first + count; ++i) body(i)], the
    state of the loop threaded through the iterations. *)
Fixpoint for_loop {S : Type} (count first : nat)
         (body : nat -> S -> outcome S) (s : S) : outcome S :=
  match count with
  | O => Ret s
  | Datatypes.S count' =>
      s' <- body first s ;; for_loop count' (Datatypes.S first) body s'
  end.

(** [for (const auto & x : v) body(x)]. *)
Fixpoint for_each {A S : Type} (v : list A)
         (body : A -> S -> outcome S) (s : S) : outcome S :=
  match v with
  | [] => Ret s
  | x :: v' => s' <- body x s ;; for_each v' body s'
  end.

End Std.

(** ** rclcpp::Duration *)

Module Duration.

(** [static_cast<int64_t>(x)]: truncation toward zero. *)
Definition to_int64 (x : float) : outcome Z :=
  match Prim2SF x with
  | S754_zero _ => Ret 0
  | S754_finite s m e =>
      let a := if 0 <=? e then Z.pos m * 2 ^ e else Z.pos m / 2 ^ (- e) in
      Ret (if s then - a else a)
  | S754_infinity _ | S754_nan => Fault BadCast
  end.

(** [static_cast<double>(n)]: rounding to the nearest double. *)
Definition of_int64 (n : Z) : float :=
  SF2Prim (binary_normalize prec emax n 0 false).

(** [Duration::from_seconds(s)] is
    [Duration(static_cast<int64_t>(s * (1000LL * 1000LL * 1000LL)))]. *)
Definition from_seconds (s : float) : outcome Z :=
  to_int64 (s * 1000000000)%float.

(** [Duration::seconds()]: the nanoseconds converted to double and divided
    by 1e9 ([std::chrono::duration<double>]). *)
Definition seconds (d : Z) : float :=
  (of_int64 d / 1000000000)%float.

Definition nanoseconds (d : Z) : Z := d.

End Duration.

(** ** Messages *)

Definition JointNames := list string.

(** [trajectory_msgs::msg::JointTrajectoryPoint]. *)
Record TrajPoint : Type := mkTrajPoint {
  positions : list float;
  velocities : list float;
  accelerations : list float;
  effort : list float;
  time_from_start : Z
}.

Definition TrajPoint_default : TrajPoint :=
  mkTrajPoint [] [] [] [] 0.

Definition set_positions (p : TrajPoint) (v : list float) : TrajPoint :=
  mkTrajPoint v (velocities p) (accelerations p) (effort p) (time_from_start p).

Definition set_velocities (p : TrajPoint) (v : list float) : TrajPoint :=
  mkTrajPoint (positions p) v (accelerations p) (effort p) (time_from_start p).

Definition set_accelerations (p : TrajPoint) (v : list float) : TrajPoint :=
  mkTrajPoint (positions p) (velocities p) v (effort p) (time_from_start p).

Definition set_time_from_start (p : TrajPoint) (t : Z) : TrajPoint :=
  mkTrajPoint (positions p) (velocities p) (accelerations p) (effort p) t.

(** [trajectory_msgs::msg::JointTrajectory] (the header is not used). *)
Module JointTrajectory.
Record t : Type := mk {
  joint_names : JointNames;
  points : list TrajPoint
}.
End JointTrajectory.

(** ** The MoveIt collaborator *)

(** A move group, as far as the planner reads it. *)
Record MoveGroupInterface : Type := mkMoveGroupInterface {
  getName : string;
  getActiveJoints : JointNames
}.

Definition MoveItErrorCode := Z.
Definition SUCCESS : MoveItErrorCode := 1.

(** A call on a move group, with the answer it got. *)
Inductive Event : Type :=
| SetStartStateToCurrentState (g : MoveGroupInterface)
| SetJointValueTarget (g : MoveGroupInterface) (joint : string) (value : float)
                      (ok : bool)
| Plan (g : MoveGroupInterface) (code : MoveItErrorCode)
       (trajectory : JointTrajectory.t).

(** The answers of MoveIt, from the calls made before. *)
Record MoveIt : Type := mkMoveIt {
  setJointValueTarget :
    list Event -> MoveGroupInterface -> string -> float -> bool;
  plan :
    list Event -> MoveGroupInterface -> MoveItErrorCode * JointTrajectory.t
}.

(** ** The planner object *)

Record PlanningData : Type := mkPlanningData {
  move_group : MoveGroupInterface;
  sorted_joint_names : JointNames
}.

(** [PlanningData::PlanningData(move_group_ptr)]. *)
Definition PlanningData_new (move_group_ptr : MoveGroupInterface) : PlanningData :=
  mkPlanningData move_group_ptr (Std.sort (getActiveJoints move_group_ptr)).

Record ApproachPlanner : Type := mkApproachPlanner {
  joint_tol_ : float;
  skip_planning_vel_ : float;
  skip_planning_min_dur_ : float;
  planning_disabled_ : bool;
  no_plan_joints_ : list string;
  planning_data_ : list PlanningData
}.

(** The parameters of the node that the constructor reads; [None] when the
    node does not have the parameter. *)
Record Parameters : Type := mkParameters {
  joint_tolerance : option float;
  planning_groups : option (list string);
  exclude_from_planning_joints : option (list string);
  skip_planning_approach_vel : option float;
  skip_planning_approach_min_dur : option float;
  disable_motion_planning : option bool
}.

Definition value_or {A : Type} (o : option A) (default : A) : A :=
  match o with
  | Some a => a
  | None => default
  end.

(** [1e-3] as the nearest double. *)
Definition milli : float := 0x1.0624dd2f1a9fcp-10%float.

(** [ApproachPlanner::ApproachPlanner(node)]; [new_move_group] stands for
    the construction of a [MoveGroupInterface] from the name of a group. *)
Definition ApproachPlanner_new (node : Parameters)
           (new_move_group : string -> outcome MoveGroupInterface)
  : outcome ApproachPlanner :=
  let skip_planning_vel := value_or (skip_planning_approach_vel node) 0.5%float in
  let skip_planning_min_dur :=
    value_or (skip_planning_approach_min_dur node) 0%float in
  let planning_disabled := value_or (disable_motion_planning node) false in
  if planning_disabled then
    Ret (mkApproachPlanner milli skip_planning_vel skip_planning_min_dur
                           planning_disabled [] [])
  else
    let joint_tol := value_or (joint_tolerance node) milli in
    let no_plan_joints := value_or (exclude_from_planning_joints node) [] in
    match planning_groups node with
    | None => Fault RuntimeError
    | Some groups =>
        planning_data <-
          Std.for_each groups
            (fun planning_group planning_data =>
               g <- new_move_group planning_group ;;
               Ret (Std.push_back planning_data (PlanningData_new g)))
            [] ;;
        Ret (mkApproachPlanner joint_tol skip_planning_vel skip_planning_min_dur
                               planning_disabled no_plan_joints planning_data)
    end.

(** ** The member functions *)

Section Members.

Variable moveit : MoveIt.
Variable self : ApproachPlanner.

Definition isPlanningJoint (joint_name : string) : bool :=
  match Std.find (no_plan_joints_ self) joint_name with
  | None => true
  | Some _ => false
  end.

(** The body of the loop of [noPlanningReachTime], for the joint of index
    [i]; the state of the loop is [dmax]. *)
Definition noPlanningReachTime_joint (curr_pos goal_pos : list float)
           (i : nat) (dmax : float) : outcome float :=
  goal <- Std.at_ goal_pos i ;;
  curr <- Std.at_ curr_pos i ;;
  let d := abs (goal - curr)%float in
  Ret (if (dmax <? d)%float then d else dmax).

Definition noPlanningReachTime (curr_pos goal_pos : list float) : outcome float :=
  dmax <-
    Std.for_loop (List.length curr_pos) 0
      (noPlanningReachTime_joint curr_pos goal_pos) 0%float ;;
  Ret (Std.max (dmax / skip_planning_vel_ self)%float
               (skip_planning_min_dur_ self)).

Definition getValidMoveGroups (min_group max_group : JointNames)
  : list MoveGroupInterface :=
  let min_group_s := Std.sort min_group in
  let max_group_s := Std.sort max_group in
  map move_group
      (filter
         (fun data =>
            let group_s := sorted_joint_names data in
            Std.includes group_s min_group_s
            && Std.includes max_group_s group_s)
         (planning_data_ self)).

(** The loop of [planApproach] that sets the goal of the planner, from the
    joint of index [first] on. *)
Fixpoint planApproach_goal (joint_names : JointNames)
         (joint_values : list float) (move_group : MoveGroupInterface)
         (count first : nat) (log : list Event)
  : outcome (bool * list Event) :=
  match count with
  | O => Ret (true, log)
  | S count' =>
      name <- Std.at_ joint_names first ;;
      value <- Std.at_ joint_values first ;;
      let set_goal_ok := setJointValueTarget moveit log move_group name value in
      let log := log ++ [SetJointValueTarget move_group name value set_goal_ok] in
      if set_goal_ok
      then planApproach_goal joint_names joint_values move_group
                             count' (S first) log
      else Ret (false, log)
  end.

Definition planApproach (joint_names : JointNames)
           (joint_values : list float) (move_group : MoveGroupInterface)
           (traj : JointTrajectory.t) (log : list Event)
  : outcome (bool * JointTrajectory.t * list Event) :=
  let log := log ++ [SetStartStateToCurrentState move_group] in
  '(goal_ok, log) <-
    planApproach_goal joint_names joint_values move_group
                      (List.length joint_names) 0 log ;;
  if negb goal_ok then Ret (false, traj, log)
  else
    let '(planning_ok, plan_trajectory) := plan moveit log move_group in
    let log := log ++ [Plan move_group planning_ok plan_trajectory] in
    if negb (planning_ok =? SUCCESS) then Ret (false, traj, log)
    else if Std.empty (JointTrajectory.points plan_trajectory)
         then Ret (false, traj, log)
         else Ret (true, plan_trajectory, log).

(** The loop of [computeApproach] over the valid move groups;
    [approach_ok] is false when it starts and when it ends without a
    [break]. *)
Fixpoint computeApproach_plan (valid_move_groups : list MoveGroupInterface)
         (max_planning_group : JointNames) (max_planning_values : list float)
         (traj : JointTrajectory.t) (log : list Event)
  : outcome (bool * JointTrajectory.t * list Event) :=
  match valid_move_groups with
  | [] => Ret (false, traj, log)
  | move_group :: rest =>
      '(approach_ok, traj, log) <-
        planApproach max_planning_group max_planning_values move_group
                     traj log ;;
      if approach_ok then Ret (true, traj, log)
      else computeApproach_plan rest max_planning_group max_planning_values
                                traj log
  end.

(** The body of the first loop of [computeApproach], for the joint of index
    [i]; the state of the loop is the maximum planning group, its goal
    values and the minimum planning group. *)
Definition computeApproach_joint (joint_names : JointNames)
           (current_pos goal_pos : list float) (i : nat)
           (groups : JointNames * list float * JointNames)
  : outcome (JointNames * list float * JointNames) :=
  let '(max_planning_group, max_planning_values, min_planning_group) :=
    groups in
  name <- Std.at_ joint_names i ;;
  if isPlanningJoint name then
    goal <- Std.at_ goal_pos i ;;
    let max_planning_group := Std.push_back max_planning_group name in
    let max_planning_values := Std.push_back max_planning_values goal in
    current <- Std.at_ current_pos i ;;
    if (joint_tol_ self <? abs (current - goal))%float
    then Ret (max_planning_group, max_planning_values,
              Std.push_back min_planning_group name)
    else Ret (max_planning_group, max_planning_values, min_planning_group)
  else Ret (max_planning_group, max_planning_values, min_planning_group).

(** The first loop of [computeApproach]. *)
Definition computeApproach_groups (joint_names : JointNames)
           (current_pos goal_pos : list float)
  : outcome (JointNames * list float * JointNames) :=
  Std.for_loop (List.length joint_names) 0
    (computeApproach_joint joint_names current_pos goal_pos)
    ([], [], []).

(** [traj] is an output only: the function clears it on entry. *)
Definition computeApproach (joint_names : JointNames)
           (current_pos goal_pos : list float) (log : list Event)
  : outcome (bool * JointTrajectory.t * list Event) :=
  let traj := JointTrajectory.mk [] [] in
  '(max_planning_group, max_planning_values, min_planning_group) <-
    computeApproach_groups joint_names current_pos goal_pos ;;
  if Std.empty min_planning_group then Ret (true, traj, log)
  else
    let valid_move_groups :=
      getValidMoveGroups min_planning_group max_planning_group in
    if Std.empty valid_move_groups then Ret (false, traj, log)
    else
      computeApproach_plan valid_move_groups max_planning_group
                           max_planning_values traj log.

(** The body of the loop of [combineTrajectories] over the joints: the
    entries of index [i] of the combined waypoint [point]. *)
Definition combineTrajectories_joint (joint_names : JointNames)
           (current_pos : list float) (traj_in : list TrajPoint)
           (approach : JointTrajectory.t) (point_appr : TrajPoint)
           (has_velocities has_accelerations : bool)
           (i : nat) (point : TrajPoint) : outcome TrajPoint :=
  let plan_joints := JointTrajectory.joint_names approach in
  name <- Std.at_ joint_names i ;;
  match Std.find plan_joints name with
  | Some approach_id =>
      (* Joint is part of the planned approach *)
      p <- Std.at_ (positions point_appr) approach_id ;;
      ps <- Std.assign (positions point) i p ;;
      let point := set_positions point ps in
      point <-
        (if has_velocities then
           v <- Std.at_ (velocities point_appr) approach_id ;;
           vs <- Std.assign (velocities point) i v ;;
           Ret (set_velocities point vs)
         else Ret point) ;;
      if has_accelerations then
        a <- Std.at_ (accelerations point_appr) approach_id ;;
        accs <- Std.assign (accelerations point) i a ;;
        Ret (set_accelerations point accs)
      else Ret point
  | None =>
      (* Joint is not part of the planning group: linear interpolation *)
      let t_min := 0%float in
      last_appr <- Std.back (JointTrajectory.points approach) ;;
      let t_max := Duration.seconds (time_from_start last_appr) in
      let t := Duration.seconds (time_from_start point_appr) in
      p_min <- Std.at_ current_pos i ;;
      first_in <- Std.front traj_in ;;
      p_max <- Std.at_ (positions first_in) i ;;
      let vel := ((p_max - p_min) / (t_max - t_min))%float in
      ps <- Std.assign (positions point) i (p_min + vel * t)%float ;;
      let point := set_positions point ps in
      point <-
        (if has_velocities then
           vs <- Std.assign (velocities point) i vel ;;
           Ret (set_velocities point vs)
         else Ret point) ;;
      if has_accelerations then
        accs <- Std.assign (accelerations point) i 0%float ;;
        Ret (set_accelerations point accs)
      else Ret point
  end.

(** The body of the loop of [combineTrajectories] over the waypoints of
    the approach: the combined waypoint built from [point_appr]. *)
Definition combineTrajectories_point (joint_names : JointNames)
           (current_pos : list float) (traj_in : list TrajPoint)
           (approach : JointTrajectory.t) (joint_dim : nat)
           (point_appr : TrajPoint) : outcome TrajPoint :=
  let has_velocities := negb (Std.empty (velocities point_appr)) in
  let has_accelerations := negb (Std.empty (accelerations point_appr)) in
  let point := TrajPoint_default in
  let point :=
    set_positions point (Std.resize (positions point) joint_dim 0%float) in
  let point :=
    if has_velocities
    then set_velocities point (Std.resize (velocities point) joint_dim 0%float)
    else point in
  let point :=
    if has_accelerations
    then set_accelerations point
           (Std.resize (accelerations point) joint_dim 0%float)
    else point in
  let point := set_time_from_start point (time_from_start point_appr) in
  Std.for_loop joint_dim 0
    (combineTrajectories_joint joint_names current_pos traj_in approach
       point_appr has_velocities has_accelerations)
    point.

(** [point.time_from_start = Duration(point.time_from_start) + offset]. *)
Definition delay (offset : Z) (point : TrajPoint) : TrajPoint :=
  set_time_from_start point
    (Duration.nanoseconds (time_from_start point) + offset).

Definition combineTrajectories (joint_names : JointNames)
           (current_pos : list float) (traj_in : list TrajPoint)
           (approach : JointTrajectory.t) (traj_out : list TrajPoint)
  : outcome (list TrajPoint) :=
  first_in <- Std.front traj_in ;;
  let joint_dim := List.length (positions first_in) in
  traj_out <-
    Std.for_each (JointTrajectory.points approach)
      (fun point_appr traj_out =>
         point <- combineTrajectories_point joint_names current_pos traj_in
                    approach joint_dim point_appr ;;
         Ret (Std.push_back traj_out point))
      traj_out ;;
  (* If input trajectory is a single point, the approach is all there is *)
  if (1 =? List.length traj_in)%nat then Ret traj_out
  else
    last_out <- Std.back traj_out ;;
    let offset := time_from_start last_out in
    (* Remove duplicate waypoint *)
    traj_out <- Std.pop_back traj_out ;;
    (* Append input trajectory to approach *)
    Std.for_each traj_in
      (fun point traj_out => Ret (Std.push_back traj_out (delay offset point)))
      traj_out.

(** The branch [if (skip_planning)] of [prependApproach]. *)
Definition prependApproach_skip (current_pos : list float)
           (traj_in : list TrajPoint) : outcome (list TrajPoint) :=
  let traj_out := traj_in in
  first_out <- Std.front traj_out ;;
  if Duration.nanoseconds (time_from_start first_out) =? 0 then
    reach_time <- noPlanningReachTime current_pos (positions first_out) ;;
    reach_time_duration <- Duration.from_seconds reach_time ;;
    Ret (map (delay reach_time_duration) traj_out)
  else Ret traj_out.

(** The branch [else] of [prependApproach]: [None] when [computeApproach]
    fails, where the function returns false at once. *)
Definition prependApproach_plan (joint_names : JointNames)
           (current_pos : list float) (traj_in traj_out : list TrajPoint)
           (log : list Event)
  : outcome (option (list TrajPoint) * list Event) :=
  first_in <- Std.front traj_in ;;
  '(approach_ok, approach, log) <-
    computeApproach joint_names current_pos (positions first_in) log ;;
  if negb approach_ok then Ret (None, log)
  else if Std.empty (JointTrajectory.points approach)
       then Ret (Some traj_in, log)
       else
         traj_out <- combineTrajectories joint_names current_pos traj_in
                       approach traj_out ;;
         Ret (Some traj_out, log).

Definition eps_time : float := milli.

(** The end of [prependApproach]: first waypoints with zero time from
    start. *)
Definition prependApproach_first_waypoint (current_pos : list float)
           (traj_out : list TrajPoint) : outcome (list TrajPoint) :=
  first_out <- Std.front traj_out ;;
  traj_out <-
    (if Duration.nanoseconds (time_from_start first_out) =? 0 then
       reach_time <- noPlanningReachTime current_pos (positions first_out) ;;
       reach_time_duration <- Duration.from_seconds reach_time ;;
       if (eps_time <? reach_time)%float
       then Ret (map (delay reach_time_duration) traj_out)
       else Ret traj_out
     else Ret traj_out) ;;
  first_out <- Std.front traj_out ;;
  if Duration.nanoseconds (time_from_start first_out) =? 0 then
    eps <- Duration.from_seconds eps_time ;;
    Std.assign traj_out 0 (set_time_from_start first_out eps)
  else Ret traj_out.

(** [prependApproach]: the value returned, the trajectory left in
    [traj_out] and the log of the calls on the move groups. *)
Definition prependApproach (joint_names : JointNames)
           (current_pos : list float) (skip_planning : bool)
           (traj_in traj_out : list TrajPoint) (log : list Event)
  : outcome (bool * list TrajPoint * list Event) :=
  (* Empty trajectory. Nothing to do *)
  if Std.empty traj_in then Ret (true, traj_in, log)
  else
    first_in <- Std.front traj_in ;;
    let joint_dim := List.length (positions first_in) in
    (* Preconditions *)
    if negb (joint_dim =? List.length joint_names)%nat
    then Ret (false, traj_out, log)
    else if negb (joint_dim =? List.length current_pos)%nat
    then Ret (false, traj_out, log)
    else if negb skip_planning && planning_disabled_ self
    then Ret (false, traj_out, log)
    else
      '(branch, log) <-
        (if skip_planning then
           out <- prependApproach_skip current_pos traj_in ;;
           Ret (Some out, log)
         else
           prependApproach_plan joint_names current_pos traj_in traj_out log) ;;
      match branch with
      | None => Ret (false, traj_out, log)
      | Some traj_out =>
          traj_out <- prependApproach_first_waypoint current_pos traj_out ;;
          Ret (true, traj_out, log)
      end.

End Members.

(** ** Definitions used by the statements *)

(** [for (...) out.push_back(f(x))] collects the values of [f]. *)
Fixpoint mapM {A B : Type} (f : A -> outcome B) (l : list A) : outcome (list B) :=
  match l with
  | [] => Ret []
  | x :: l' => y <- f x ;; ys <- mapM f l' ;; Ret (y :: ys)
  end.

Ltac inv_bind H :=
  match type of H with
  | bind ?m _ = Ret _ =>
      let a := fresh "x" in
      let E := fresh "E" in
      destruct m as [a|] eqn:E; [cbn [bind] in H | discriminate H]
  end.

Definition fst3 {A B C : Type} (x : A * B * C) : A := fst (fst x).
Definition snd3 {A B C : Type} (x : A * B * C) : B := snd (fst x).
Definition thd3 {A B C : Type} (x : A * B * C) : C := snd x.

(** What one iteration of the loop of [combineTrajectories] over the joints
    writes at index [i]: the position, the velocity and the acceleration.
    The last two are read from the approach only when its waypoint has
    them. *)
Definition combined_joint (joint_names : JointNames)
           (current_pos : list float) (traj_in : list TrajPoint)
           (approach : JointTrajectory.t) (point_appr : TrajPoint)
           (i : nat) : outcome (float * float * float) :=
  name <- Std.at_ joint_names i ;;
  match Std.find (JointTrajectory.joint_names approach) name with
  | Some approach_id =>
      p <- Std.at_ (positions point_appr) approach_id ;;
      v <- (if Std.empty (velocities point_appr) then Ret 0%float
            else Std.at_ (velocities point_appr) approach_id) ;;
      a <- (if Std.empty (accelerations point_appr) then Ret 0%float
            else Std.at_ (accelerations point_appr) approach_id) ;;
      Ret (p, v, a)
  | None =>
      last_appr <- Std.back (JointTrajectory.points approach) ;;
      let t_max := Duration.seconds (time_from_start last_appr) in
      let t := Duration.seconds (time_from_start point_appr) in
      p_min <- Std.at_ current_pos i ;;
      first_in <- Std.front traj_in ;;
      p_max <- Std.at_ (positions first_in) i ;;
      let vel := ((p_max - p_min) / (t_max - 0))%float in
      Ret ((p_min + vel * t)%float, vel, 0%float)
  end.

(** The waypoint that the loop over the joints leaves, from what its
    iterations wrote. *)
Definition combined_point (point_appr : TrajPoint)
           (vals : list (float * float * float)) : TrajPoint :=
  mkTrajPoint (map fst3 vals)
              (if Std.empty (velocities point_appr) then [] else map snd3 vals)
              (if Std.empty (accelerations point_appr) then []
               else map thd3 vals)
              []
              (time_from_start point_appr).

(** A waypoint of an approach over [n] joints: one position per joint, and
    one velocity and one acceleration per joint when it has any. *)
Definition approach_point_fits (n : nat) (p : TrajPoint) : Prop :=
  List.length (positions p) = n
  /\ (velocities p = [] \/ List.length (velocities p) = n)
  /\ (accelerations p = [] \/ List.length (accelerations p) = n).

(** Arguments of [combineTrajectories] whose vectors are as long as the
    function reads them. *)
Definition combine_ready (joint_names : JointNames) (current_pos : list float)
           (traj_in : list TrajPoint) (approach : JointTrajectory.t) : Prop :=
  exists first_in,
    hd_error traj_in = Some first_in
    /\ (List.length (positions first_in) <= List.length joint_names)%nat
    /\ (List.length (positions first_in) <= List.length current_pos)%nat
    /\ Forall (approach_point_fits
                 (List.length (JointTrajectory.joint_names approach)))
              (JointTrajectory.points approach).

Ltac simpl_point :=
  cbn [positions velocities accelerations set_positions set_velocities
       set_accelerations effort time_from_start].

(** The failures of [prependApproach] that the specification names. *)
Inductive Failure : Type :=
| SizeMismatch
| PlanningDisabled
| NoEligibleGroup
| PlanningFailed.

(** The call [prependApproach(joint_names, current_pos, skip_planning,
    traj_in, traj_out)] on the planner [self], with the log [log] of the
    calls made before, fails in the way [f]. *)
Definition fails_with (moveit : MoveIt) (self : ApproachPlanner)
           (joint_names : JointNames) (current_pos : list float)
           (skip_planning : bool) (traj_in : list TrajPoint)
           (log : list Event) (f : Failure) : Prop :=
  exists first_in,
    hd_error traj_in = Some first_in /\
    let joint_dim := List.length (positions first_in) in
    match f with
    | SizeMismatch =>
        joint_dim <> List.length joint_names
        \/ joint_dim <> List.length current_pos
    | PlanningDisabled =>
        skip_planning = false /\ planning_disabled_ self = true
    | NoEligibleGroup =>
        joint_dim = List.length joint_names
        /\ joint_dim = List.length current_pos
        /\ skip_planning = false /\ planning_disabled_ self = false
        /\ exists max_group max_values min_group,
            computeApproach_groups self joint_names current_pos
              (positions first_in) = Ret (max_group, max_values, min_group)
            /\ min_group <> []
            /\ getValidMoveGroups self min_group max_group = []
    | PlanningFailed =>
        joint_dim = List.length joint_names
        /\ joint_dim = List.length current_pos
        /\ skip_planning = false /\ planning_disabled_ self = false
        /\ exists max_group max_values min_group traj log',
            computeApproach_groups self joint_names current_pos
              (positions first_in) = Ret (max_group, max_values, min_group)
            /\ min_group <> []
            /\ computeApproach_plan moveit
                 (getValidMoveGroups self min_group max_group)
                 max_group max_values (JointTrajectory.mk [] []) log
               = Ret (false, traj, log')
    end.

(** [std::isfinite]. *)
Definition finite (x : float) : bool :=
  match Prim2SF x with
  | S754_zero _ | S754_finite _ _ _ => true
  | S754_infinity _ | S754_nan => false
  end.

(** ** Reading the log *)

Definition is_start (e : Event) : bool :=
  match e with
  | SetStartStateToCurrentState _ => true
  | _ => false
  end.



(** The goals that the calls of [setJointValueTarget] ask for. *)
Definition requested_goals (calls : list Event) : list (string * float) :=
  flat_map (fun e => match e with
                     | SetJointValueTarget _ joint value _ => [(joint, value)]
                     | _ => []
                     end) calls.

Definition is_plan (e : Event) : bool :=
  match e with
  | Plan _ _ _ => true
  | _ => false
  end.

(** The planner was invoked: [plan] was called. *)
Definition planner_invoked (calls : list Event) : bool := existsb is_plan calls.

(** A call of [plan] that [planApproach] takes as a success. *)
Definition plan_succeeded (e : Event) : bool :=
  match e with
  | Plan _ code trajectory =>
      (code =? SUCCESS) && negb (Std.empty (JointTrajectory.points trajectory))
  | _ => false
  end.

Definition attempt_succeeded (calls : list Event) : bool :=
  existsb plan_succeeded calls.

(** The group on which a call is made. *)
Definition group_of (e : Event) : MoveGroupInterface :=
  match e with
  | SetStartStateToCurrentState g => g
  | SetJointValueTarget g _ _ _ => g
  | Plan g _ _ => g
  end.



Definition name_le (a b : string) : Prop := String.ltb b a = false.
Definition name_lt (a b : string) : Prop := String.ltb a b = true.








(** The joints of a request with their current and goal positions. *)
Definition joint_states (joint_names : JointNames)
           (current_pos goal_pos : list float)
  : list (string * (float * float)) :=
  combine joint_names (combine current_pos goal_pos).

(** The joints that are not excluded from planning. *)
Definition eligible (self : ApproachPlanner)
           (states : list (string * (float * float)))
  : list (string * (float * float)) :=
  filter (fun s => isPlanningJoint self (fst s)) states.

(** The joints that are further from their goal than the tolerance. *)
Definition moving (self : ApproachPlanner)
           (states : list (string * (float * float)))
  : list (string * (float * float)) :=
  filter (fun s => (joint_tol_ self <? abs (fst (snd s) - snd (snd s)))%float)
         states.

(** ** Concrete data for the examples *)

Definition waypoint (ps : list float) (t : Z) : TrajPoint :=
  mkTrajPoint ps [] [] [] t.

Definition waypoint_v (ps vs : list float) (t : Z) : TrajPoint :=
  mkTrajPoint ps vs [] [] t.

(** An approach of the joint [j1] from 0 to 1 in four seconds. *)
Definition example_approach : JointTrajectory.t :=
  JointTrajectory.mk ["j1"]
    [waypoint_v [0%float] [0%float] 0;
     waypoint_v [0.5%float] [1%float] 2000000000;
     waypoint_v [1%float] [0%float] 4000000000].

(** A motion of the joints [j1] and [jx] in two waypoints. *)
Definition example_motion : list TrajPoint :=
  [waypoint [1%float; 2%float] 0; waypoint [5%float; 5%float] 1000000000].

Definition example_joints : JointNames := ["j1"; "jx"].

Definition example_current : list float := [0%float; 0%float].

(** An approach that ends at time zero: one waypoint, at the start. *)
Definition stalled_approach : JointTrajectory.t :=
  JointTrajectory.mk ["j1"] [waypoint [1%float] 0].

Definition single_motion : list TrajPoint := [waypoint [1%float; 2%float] 0].

(** The groups of the example of the specification, in the order of the
    configuration. *)
Definition example_groups : list MoveGroupInterface :=
  [mkMoveGroupInterface "g12" ["j2"; "j1"];
   mkMoveGroupInterface "g23" ["j2"; "j3"];
   mkMoveGroupInterface "g13" ["j1"; "j3"];
   mkMoveGroupInterface "g123" ["j1"; "j2"; "j3"]].

Definition example_planner : ApproachPlanner :=
  mkApproachPlanner milli 0.5%float 0%float false []
                    (map PlanningData_new example_groups).

(** A MoveIt that accepts every goal and plans on the group [g123] only. *)
Definition example_moveit : MoveIt :=
  mkMoveIt (fun _ _ _ _ => true)
           (fun _ g => if String.eqb (getName g) "g123"
                       then (SUCCESS, example_approach)
                       else (99, JointTrajectory.mk [] [])).

(** A planner with the single group [arm] of the joint [j1]. *)
Definition arm : MoveGroupInterface := mkMoveGroupInterface "arm" ["j1"].


Definition permissive_moveit : MoveIt :=
  mkMoveIt (fun _ _ _ _ => true) (fun _ _ => (SUCCESS, example_approach)).


(** A MoveIt that accepts every goal and never finds a plan. *)
Definition failing_moveit : MoveIt :=
  mkMoveIt (fun _ _ _ _ => true) (fun _ _ => (99, JointTrajectory.mk [] [])).

(** A planner whose planning capability is disabled. *)
Definition disabled_planner : ApproachPlanner :=
  mkApproachPlanner milli 0.5%float 0%float true [] [].

(** ** The other functions of the planner *)

(** The outcome of a function that starts with an [assert]: a failed
    assertion aborts the program. *)
Inductive asserted (A : Type) : Type :=
| Passed (a : A)
| AssertionFailed.

Arguments Passed {A} a.
Arguments AssertionFailed {A}.

(** The loop of [needsApproach], from the joint of index [first] on. *)
Fixpoint needsApproach_from (self : ApproachPlanner)
         (current_pos goal_pos : list float) (count first : nat)
  : outcome bool :=
  match count with
  | O => Ret false
  | S count' =>
      current <- Std.at_ current_pos first ;;
      goal <- Std.at_ goal_pos first ;;
      if (joint_tol_ self <? abs (current - goal))%float then Ret true
      else needsApproach_from self current_pos goal_pos count' (S first)
  end.

Definition needsApproach (self : ApproachPlanner)
           (current_pos goal_pos : list float) : asserted (outcome bool) :=
  if (List.length current_pos =? List.length goal_pos)%nat
  then Passed (needsApproach_from self current_pos goal_pos
                                  (List.length current_pos) 0)
  else AssertionFailed.

(** A waypoint without its time. *)
Definition untimed (p : TrajPoint) : TrajPoint := set_time_from_start p 0.

(** A call of [setJointValueTarget] in a log names a joint of the request
    that is not excluded from planning; the other calls are left free. *)
Definition goal_allowed (self : ApproachPlanner) (joint_names : JointNames)
           (e : Event) : Prop :=
  match e with
  | SetJointValueTarget _ joint _ _ =>
      In joint joint_names /\ ~ In joint (no_plan_joints_ self)
  | _ => True
  end.

(** A planner with the single group [arm] that leaves the joint [jx] out of
    planning. *)
Definition guarded_planner : ApproachPlanner :=
  mkApproachPlanner milli 0.5%float 0%float false ["jx"] [PlanningData_new arm].


(** ** The listings of the log messages *)

(** [std::copy(val.begin(), val.end(), std::ostream_iterator(ss, delim))]
    on an empty stream, and [ret += x + delim] in a loop on an empty
    string: the text written. *)
Definition ostream_copy (val : list string) (delim : string) : string :=
  fold_left (fun ss x => (ss ++ (x ++ delim))%string) val "".

(** [ret.erase(ret.size() - 2)]: the characters from the position on are
    removed. The position is unsigned: for a string shorter than two
    characters it wraps around, beyond the end of the string, and [erase]
    throws [std::out_of_range]. *)
Definition erase_last_two (ret : string) : outcome string :=
  if (2 <=? String.length ret)%nat
  then Ret (substring 0 (String.length ret - 2) ret)
  else Fault OutOfRange.

Definition enumerateElementsStr (val : list string) : outcome string :=
  let ret := ostream_copy val ", " in
  if negb (String.eqb ret "") then erase_last_two ret else Ret ret.

Definition enumeratePlanningGroups (move_groups : list MoveGroupInterface)
  : outcome string :=
  let ret :=
    fold_left (fun ret group => (ret ++ (getName group ++ ", "))%string)
              move_groups "" in
  if negb (String.eqb ret "") then erase_last_two ret else Ret ret.

(** ** The simulated hardware: [RRBotSystem] *)

(** What the system reads of [hardware_interface]. *)
Module hardware_interface.

Inductive return_type : Type := OK | ERROR.

Inductive status : Type := UNKNOWN | CONFIGURED | STARTED | STOPPED.

Definition HW_IF_POSITION : string := "position".
Definition HW_IF_VELOCITY : string := "velocity".

Module InterfaceInfo.
Record t : Type := mk {
  name : string
}.
End InterfaceInfo.

Module ComponentInfo.
Record t : Type := mk {
  name : string;
  command_interfaces : list InterfaceInfo.t;
  state_interfaces : list InterfaceInfo.t
}.
End ComponentInfo.

Module HardwareInfo.
Record t : Type := mk {
  joints : list ComponentInfo.t
}.
End HardwareInfo.

End hardware_interface.

Module RRBotSystem.
Import hardware_interface.

(** The object: [info_] and [status_] are the members of [BaseInterface]. *)
Record t : Type := mk {
  info_ : HardwareInfo.t;
  status_ : status;
  position_commands_ : list float;
  position_states_ : list float;
  velocity_states_ : list float
}.

Definition set_status_ (self : t) (s : status) : t :=
  mk (info_ self) s (position_commands_ self) (position_states_ self)
     (velocity_states_ self).

Definition set_position_commands_ (self : t) (v : list float) : t :=
  mk (info_ self) (status_ self) v (position_states_ self)
     (velocity_states_ self).

Definition set_position_states_ (self : t) (v : list float) : t :=
  mk (info_ self) (status_ self) (position_commands_ self) v
     (velocity_states_ self).

Definition set_velocity_states_ (self : t) (v : list float) : t :=
  mk (info_ self) (status_ self) (position_commands_ self)
     (position_states_ self) v.

(** The address [&v[i]] of a slot of one of the three vectors. *)
Inductive slot : Type :=
| position_states_at (i : nat)
| velocity_states_at (i : nat)
| position_commands_at (i : nat).

(** A [StateInterface] or a [CommandInterface]: the name of the joint, the
    name of the interface and the address of its value. *)
Record Handle : Type := mkHandle {
  name : string;
  interface_name : string;
  value_ptr : slot
}.

Definition StateInterface := Handle.
Definition CommandInterface := Handle.

(** The loop of [configure] over the joints: [ERROR] when it returns from
    the function, [OK] when it ends. *)
Fixpoint configure_joints (joints : list ComponentInfo.t)
  : outcome return_type :=
  match joints with
  | [] => Ret OK
  | joint :: rest =>
      if negb (List.length (ComponentInfo.command_interfaces joint) =? 1)%nat
      then Ret ERROR
      else
        command <- Std.at_ (ComponentInfo.command_interfaces joint) 0 ;;
        if negb (String.eqb (InterfaceInfo.name command) HW_IF_POSITION)
        then Ret ERROR
        else if negb (List.length (ComponentInfo.state_interfaces joint) =? 1)%nat
        then Ret ERROR
        else
          state <- Std.at_ (ComponentInfo.state_interfaces joint) 0 ;;
          if negb (String.eqb (InterfaceInfo.name state) HW_IF_POSITION)
          then Ret ERROR
          else configure_joints rest
  end.

(** [configure]; [configure_default] is the function of [BaseInterface],
    which may set [info_] and [status_]. *)
Definition configure
           (configure_default : HardwareInfo.t -> t -> return_type * t)
           (info : HardwareInfo.t) (self : t) : outcome (return_type * t) :=
  let '(default_ok, self) := configure_default info self in
  match default_ok with
  | ERROR => Ret (ERROR, self)
  | OK =>
      let size := List.length (HardwareInfo.joints (info_ self)) in
      let self :=
        set_position_states_ self (Std.resize (position_states_ self) size nan) in
      let self :=
        set_velocity_states_ self (Std.resize (velocity_states_ self) size nan) in
      let self :=
        set_position_commands_ self
          (Std.resize (position_commands_ self) size nan) in
      joints_ok <- configure_joints (HardwareInfo.joints (info_ self)) ;;
      match joints_ok with
      | ERROR => Ret (ERROR, self)
      | OK => Ret (OK, set_status_ self CONFIGURED)
      end
  end.

(** The body of the loop of [export_state_interfaces]; taking the address
    of a slot that the vector does not have is undefined. *)
Definition export_state_interfaces_joint (self : t) (i : nat)
           (state_interfaces : list StateInterface)
  : outcome (list StateInterface) :=
  joint <- Std.at_ (HardwareInfo.joints (info_ self)) i ;;
  _ <- Std.at_ (position_states_ self) i ;;
  let state_interfaces :=
    Std.push_back state_interfaces
      (mkHandle (ComponentInfo.name joint) HW_IF_POSITION
                (position_states_at i)) in
  _ <- Std.at_ (velocity_states_ self) i ;;
  Ret (Std.push_back state_interfaces
         (mkHandle (ComponentInfo.name joint) HW_IF_VELOCITY
                   (velocity_states_at i))).

Definition export_state_interfaces (self : t) : outcome (list StateInterface) :=
  Std.for_loop (List.length (HardwareInfo.joints (info_ self))) 0
    (export_state_interfaces_joint self) [].

Definition export_command_interfaces_joint (self : t) (i : nat)
           (command_interfaces : list CommandInterface)
  : outcome (list CommandInterface) :=
  joint <- Std.at_ (HardwareInfo.joints (info_ self)) i ;;
  _ <- Std.at_ (position_commands_ self) i ;;
  Ret (Std.push_back command_interfaces
         (mkHandle (ComponentInfo.name joint) HW_IF_POSITION
                   (position_commands_at i))).

Definition export_command_interfaces (self : t)
  : outcome (list CommandInterface) :=
  Std.for_loop (List.length (HardwareInfo.joints (info_ self))) 0
    (export_command_interfaces_joint self) [].

(** The body of the loop of [start]. *)
Definition start_joint (i : nat) (self : t) : outcome t :=
  position <- Std.at_ (position_states_ self) i ;;
  if is_nan position then
    positions <- Std.assign (position_states_ self) i 0%float ;;
    let self := set_position_states_ self positions in
    velocities <- Std.assign (velocity_states_ self) i 0%float ;;
    let self := set_velocity_states_ self velocities in
    commands <- Std.assign (position_commands_ self) i 0%float ;;
    Ret (set_position_commands_ self commands)
  else
    commands <- Std.assign (position_commands_ self) i position ;;
    Ret (set_position_commands_ self commands).

Definition start (self : t) : outcome (return_type * t) :=
  self <- Std.for_loop (List.length (position_states_ self)) 0 start_joint self ;;
  Ret (OK, set_status_ self STARTED).

Definition stop (self : t) : return_type * t :=
  (OK, set_status_ self STOPPED).

(** The body of the loop of [read]. *)
Definition read_joint (i : nat) (self : t) : outcome t :=
  command <- Std.at_ (position_commands_ self) i ;;
  positions <- Std.assign (position_states_ self) i command ;;
  let self := set_position_states_ self positions in
  velocities <- Std.assign (velocity_states_ self) i 0%float ;;
  Ret (set_velocity_states_ self velocities).

Definition read (self : t) : outcome (return_type * t) :=
  self <- Std.for_loop (List.length (position_states_ self)) 0 read_joint self ;;
  Ret (OK, self).

Definition write (self : t) : return_type * t := (OK, self).

End RRBotSystem.

(** ** The client of a joint trajectory controller: [MoveJointGroup] *)

(** [XmlRpc::XmlRpcValue], with the types that a parameter of the list of
    joints can have. *)
Module XmlRpc.

#[local] Unset Elimination Schemes.
Inductive XmlRpcValue : Type :=
| TypeInvalid
| TypeBoolean (b : bool)
| TypeInt (i : Z)
| TypeDouble (d : float)
| TypeString (s : string)
| TypeArray (a : list XmlRpcValue).
#[local] Set Elimination Schemes.

End XmlRpc.

Module MoveJointGroup.
Import XmlRpc.

(** [play_motion::TrajPoint], a waypoint of a motion. *)
Module TrajPoint.
Record t : Type := mk {
  positions : list float;
  velocities : list float;
  time_from_start : Z
}.
End TrajPoint.

(** [control_msgs::FollowJointTrajectoryGoal], as far as it is filled. *)
Record ActionGoal : Type := mkActionGoal {
  trajectory : JointTrajectory.t
}.

(** The object. [configure_timer_] is set when a timer is pending, and
    [client_] holds the goals sent through the action client, the last one
    last. *)
Record t : Type := mk {
  controller_name_ : string;
  joint_names_ : list string;
  configure_timer_ : bool;
  client_ : list ActionGoal
}.

Definition set_joint_names_ (self : t) (v : list string) : t :=
  mk (controller_name_ self) v (configure_timer_ self) (client_ self).

(** The loop of [configure] over the array of the parameter: it returns
    from the function at the first element that is not a string. *)
Fixpoint configure_names (joint_names : list XmlRpcValue) (self : t) : t :=
  match joint_names with
  | [] => self
  | TypeString name :: rest =>
      configure_names rest
        (set_joint_names_ self (Std.push_back (joint_names_ self) name))
  | _ :: _ => self
  end.

(** [configure]: [connected] is the answer of [client_.isServerConnected()]
    and [param] the parameter [joints] of the controller, if it has one. *)
Definition configure (connected : bool) (param : option XmlRpcValue)
           (self : t) : t :=
  if negb connected
  then mk (controller_name_ self) (joint_names_ self) true (client_ self)
  else
    let self := set_joint_names_ self [] in
    match param with
    | None => self
    | Some (TypeArray joint_names) => configure_names joint_names self
    | Some _ => self
    end.

(** [MoveJointGroup(controller_name)]. *)
Definition new (controller_name : string) (connected : bool)
           (param : option XmlRpcValue) : t :=
  configure connected param (mk controller_name [] false []).

Definition isControllingJoint (connected : bool) (joint_name : string)
           (self : t) : bool :=
  if negb connected then false
  else existsb (fun jn => String.eqb joint_name jn) (joint_names_ self).



End MoveJointGroup.

(** A joint that [RRBotSystem::configure] accepts: one command interface
    and one state interface, both of the position. *)
Definition RRBotSystem_accepted (joint : hardware_interface.ComponentInfo.t)
  : bool :=
  match hardware_interface.ComponentInfo.command_interfaces joint,
        hardware_interface.ComponentInfo.state_interfaces joint with
  | [command], [state] =>
      String.eqb (hardware_interface.InterfaceInfo.name command)
                 hardware_interface.HW_IF_POSITION
      && String.eqb (hardware_interface.InterfaceInfo.name state)
                    hardware_interface.HW_IF_POSITION
  | _, _ => false
  end.

(** The position that [RRBotSystem::start] leaves for a joint. *)
Definition RRBotSystem_started (position : float) : float :=
  if is_nan position then 0%float else position.

(** The velocity that [RRBotSystem::start] leaves for a joint. *)
Definition RRBotSystem_started_velocity (state : float * float) : float :=
  if is_nan (fst state) then 0%float else snd state.

(** The state interfaces and the command interface of the joint of index
    [fst joint]. *)
Definition RRBotSystem_state_handles
           (joint : nat * hardware_interface.ComponentInfo.t)
  : list RRBotSystem.StateInterface :=
  [RRBotSystem.mkHandle (hardware_interface.ComponentInfo.name (snd joint))
                        hardware_interface.HW_IF_POSITION
                        (RRBotSystem.position_states_at (fst joint));
   RRBotSystem.mkHandle (hardware_interface.ComponentInfo.name (snd joint))
                        hardware_interface.HW_IF_VELOCITY
                        (RRBotSystem.velocity_states_at (fst joint))].

Definition RRBotSystem_command_handle
           (joint : nat * hardware_interface.ComponentInfo.t)
  : RRBotSystem.CommandInterface :=
  RRBotSystem.mkHandle (hardware_interface.ComponentInfo.name (snd joint))
                       hardware_interface.HW_IF_POSITION
                       (RRBotSystem.position_commands_at (fst joint)).

(** A [configure_default] that stores the description of the hardware. *)
Definition storing_configure_default (info : hardware_interface.HardwareInfo.t)
           (self : RRBotSystem.t)
  : hardware_interface.return_type * RRBotSystem.t :=
  (hardware_interface.OK,
   RRBotSystem.mk info hardware_interface.CONFIGURED
                  (RRBotSystem.position_commands_ self)
                  (RRBotSystem.position_states_ self)
                  (RRBotSystem.velocity_states_ self)).

(** A joint with a position command interface and a position state
    interface. *)
Definition position_joint (name : string) : hardware_interface.ComponentInfo.t :=
  hardware_interface.ComponentInfo.mk name
    [hardware_interface.InterfaceInfo.mk "position"]
    [hardware_interface.InterfaceInfo.mk "position"].

(** The two joints of the RRBot. *)
Definition rrbot_info : hardware_interface.HardwareInfo.t :=
  hardware_interface.HardwareInfo.mk
    [position_joint "joint1"; position_joint "joint2"].

(** A system before [configure]. *)
Definition rrbot_fresh : RRBotSystem.t :=
  RRBotSystem.mk (hardware_interface.HardwareInfo.mk [])
                 hardware_interface.UNKNOWN [] [] [].

(** The strings that an array starts with. *)
Fixpoint leading_strings (values : list XmlRpc.XmlRpcValue) : list string :=
  match values with
  | XmlRpc.TypeString s :: rest => s :: leading_strings rest
  | _ => []
  end.



(** The calls of [setJointValueTarget] on [g] for [goals] that the group
    accepts. *)
Definition accepted_goals (g : MoveGroupInterface)
           (goals : list (string * float)) : list Event :=
  map (fun goal => SetJointValueTarget g (fst goal) (snd goal) true) goals.

(** The group of a call has the joints that have to move, and only joints
    of the request that are not excluded from planning. *)
Definition group_fits (self : ApproachPlanner) (joint_names min_group : JointNames)
           (e : Event) : Prop :=
  (forall joint, In joint min_group -> In joint (getActiveJoints (group_of e)))
  /\ (forall joint,
         In joint (getActiveJoints (group_of e)) ->
         In joint joint_names /\ ~ In joint (no_plan_joints_ self)).


(** The parameters of a node with the planning group [arm] and the joint
    [jx] left out of planning, and a construction of move groups that gives
    every group the joint [j1]. *)
Definition arm_node : Parameters :=
  mkParameters None (Some ["arm"]) (Some ["jx"]) None None None.

Definition arm_move_group (name : string) : outcome MoveGroupInterface :=
  Ret (mkMoveGroupInterface name ["j1"]).

(** * Properties *)

(** ** The monad and the vectors *)

Lemma bind_Ret_inv {A B : Type} (m : outcome A) (k : A -> outcome B) (b : B) :
  bind m k = Ret b -> exists a, m = Ret a /\ k a = Ret b.
Proof.
  destruct m as [a|f]; simpl; intros H; [exists a; auto | discriminate].
Qed.

Lemma mapM_length {A B : Type} (f : A -> outcome B) (l : list A) (ys : list B) :
  mapM f l = Ret ys -> List.length ys = List.length l.
Proof.
  revert ys; induction l as [|x l IH]; simpl; intros ys H.
  - injection H as <-; reflexivity.
  - inv_bind H. inv_bind H. injection H as <-. simpl. f_equal. eauto.
Qed.

Lemma mapM_nth_error {A B : Type} (f : A -> outcome B) (l : list A) (ys : list B) :
  mapM f l = Ret ys ->
  forall k x, nth_error l k = Some x ->
              exists y, nth_error ys k = Some y /\ f x = Ret y.
Proof.
  revert ys; induction l as [|x0 l IH]; simpl; intros ys H k x Hk.
  - destruct k; discriminate.
  - inv_bind H. inv_bind H. injection H as <-.
    destruct k as [|k]; simpl in *.
    + injection Hk as <-. eauto.
    + eauto.
Qed.

Lemma mapM_total {A B : Type} (f : A -> outcome B) (l : list A) :
  (forall x, In x l -> exists y, f x = Ret y) -> exists ys, mapM f l = Ret ys.
Proof.
  induction l as [|x l IH]; simpl; intros H.
  - eauto.
  - destruct (H x) as [y Hy]; auto. rewrite Hy; simpl.
    destruct IH as [ys Hys]; auto. rewrite Hys; simpl. eauto.
Qed.

Lemma for_each_push_back {A B : Type} (f : A -> outcome B) (l : list A)
      (out : list B) :
  Std.for_each l (fun x out => y <- f x ;; Ret (Std.push_back out y)) out
  = (ys <- mapM f l ;; Ret (out ++ ys)).
Proof.
  revert out; induction l as [|x l IH]; simpl; intros out.
  - now rewrite app_nil_r.
  - destruct (f x) as [y|e]; simpl; auto.
    rewrite IH. unfold Std.push_back.
    destruct (mapM f l) as [ys|e]; simpl; auto.
    now rewrite <- app_assoc.
Qed.

Lemma for_each_push_back_pure {A B : Type} (f : A -> B) (l : list A)
      (out : list B) :
  Std.for_each l (fun x out => Ret (Std.push_back out (f x))) out
  = Ret (out ++ map f l).
Proof.
  revert out; induction l as [|x l IH]; simpl; intros out.
  - now rewrite app_nil_r.
  - rewrite IH. unfold Std.push_back. now rewrite <- app_assoc.
Qed.

Lemma at_Ret {A : Type} (v : list A) (i : nat) (a : A) :
  Std.at_ v i = Ret a <-> nth_error v i = Some a.
Proof.
  unfold Std.at_. destruct (nth_error v i); split; congruence.
Qed.

Lemma at_lt {A : Type} (v : list A) (i : nat) :
  (i < List.length v)%nat -> exists a, Std.at_ v i = Ret a.
Proof.
  intros H. unfold Std.at_.
  destruct (nth_error v i) eqn:E; eauto.
  apply nth_error_None in E. lia.
Qed.

Lemma assign_middle {A : Type} (l1 l2 : list A) (x a : A) :
  Std.assign (l1 ++ x :: l2) (List.length l1) a = Ret (l1 ++ a :: l2).
Proof.
  induction l1 as [|y l1 IH]; simpl; auto.
  now rewrite IH.
Qed.

Lemma find_Some_nth (v : list string) (x : string) (i : nat) :
  Std.find v x = Some i -> nth_error v i = Some x.
Proof.
  revert i; induction v as [|y v IH]; simpl; intros i H; [discriminate|].
  destruct (String.eqb y x) eqn:E.
  - injection H as <-. apply String.eqb_eq in E. now subst.
  - destruct (Std.find v x) as [j|]; simpl in H; [|discriminate].
    injection H as <-. simpl. auto.
Qed.

Lemma find_None_iff (v : list string) (x : string) :
  Std.find v x = None <-> ~ In x v.
Proof.
  induction v as [|y v IH]; simpl.
  - tauto.
  - destruct (String.eqb y x) eqn:E.
    + apply String.eqb_eq in E. split; [discriminate | tauto].
    + apply String.eqb_neq in E.
      destruct (Std.find v x) as [j|]; simpl.
      * split; [discriminate|]. intros H. exfalso.
        assert (Hn : ~ In x v) by tauto.
        apply IH in Hn. discriminate.
      * split; auto. intros _ [H|H]; [auto|]. now apply IH.
Qed.

(** ** The loops of [combineTrajectories] *)

Lemma joint_step jn cur tin appr pa count (done : list (float * float * float)) :
  combineTrajectories_joint jn cur tin appr pa
     (negb (Std.empty (velocities pa))) (negb (Std.empty (accelerations pa)))
     (List.length done)
     (mkTrajPoint (map fst3 done ++ 0%float :: repeat 0%float count)
        (if Std.empty (velocities pa) then []
         else map snd3 done ++ 0%float :: repeat 0%float count)
        (if Std.empty (accelerations pa) then []
         else map thd3 done ++ 0%float :: repeat 0%float count)
        [] (time_from_start pa))
  = (val <- combined_joint jn cur tin appr pa (List.length done) ;;
     Ret (mkTrajPoint (map fst3 (done ++ [val]) ++ repeat 0%float count)
        (if Std.empty (velocities pa) then []
         else map snd3 (done ++ [val]) ++ repeat 0%float count)
        (if Std.empty (accelerations pa) then []
         else map thd3 (done ++ [val]) ++ repeat 0%float count)
        [] (time_from_start pa))).
Proof.
  assert (L1 : List.length (map fst3 done) = List.length done) by apply length_map.
  assert (L2 : List.length (map snd3 done) = List.length done) by apply length_map.
  assert (L3 : List.length (map thd3 done) = List.length done) by apply length_map.
  unfold combined_joint, combineTrajectories_joint.
  destruct (Std.at_ jn (List.length done)) as [name|]; [cbn [bind]|reflexivity].
  destruct (Std.find (JointTrajectory.joint_names appr) name) as [id|].
  - destruct (Std.at_ (positions pa) id) as [p|]; [cbn [bind]|reflexivity].
    simpl_point. rewrite <- L1 at 1. rewrite assign_middle. cbn [bind].
    destruct (Std.empty (velocities pa)); cbn [negb bind].
    + destruct (Std.empty (accelerations pa)); cbn [negb bind].
      * rewrite !map_app, <- !app_assoc. reflexivity.
      * destruct (Std.at_ (accelerations pa) id) as [a|]; [cbn [bind]|reflexivity].
        simpl_point. rewrite <- L3 at 1. rewrite assign_middle. cbn [bind].
        rewrite !map_app, <- !app_assoc. reflexivity.
    + destruct (Std.at_ (velocities pa) id) as [v|]; [cbn [bind]|reflexivity].
      simpl_point. rewrite <- L2 at 1. rewrite assign_middle. cbn [bind].
      destruct (Std.empty (accelerations pa)); cbn [negb bind].
      * rewrite !map_app, <- !app_assoc. reflexivity.
      * destruct (Std.at_ (accelerations pa) id) as [a|]; [cbn [bind]|reflexivity].
        simpl_point. rewrite <- L3 at 1. rewrite assign_middle. cbn [bind].
        rewrite !map_app, <- !app_assoc. reflexivity.
  - destruct (Std.back (JointTrajectory.points appr)) as [la|]; [cbn [bind]|reflexivity].
    destruct (Std.at_ cur (List.length done)) as [p_min|]; [cbn [bind]|reflexivity].
    destruct (Std.front tin) as [fi|]; [cbn [bind]|reflexivity].
    destruct (Std.at_ (positions fi) (List.length done)) as [p_max|]; [cbn [bind]|reflexivity].
    simpl_point. rewrite <- L1 at 1. rewrite assign_middle. cbn [bind].
    destruct (Std.empty (velocities pa)); cbn [negb bind].
    + destruct (Std.empty (accelerations pa)); cbn [negb bind].
      * rewrite !map_app, <- !app_assoc. reflexivity.
      * simpl_point. rewrite <- L3 at 1. rewrite assign_middle. cbn [bind].
        rewrite !map_app, <- !app_assoc. reflexivity.
    + simpl_point. rewrite <- L2 at 1. rewrite assign_middle. cbn [bind].
      destruct (Std.empty (accelerations pa)); cbn [negb bind].
      * rewrite !map_app, <- !app_assoc. reflexivity.
      * simpl_point. rewrite <- L3 at 1. rewrite assign_middle. cbn [bind].
        rewrite !map_app, <- !app_assoc. reflexivity.
Qed.

Lemma joint_loop jn cur tin appr pa count :
  forall (done : list (float * float * float)),
    Std.for_loop count (List.length done)
      (combineTrajectories_joint jn cur tin appr pa
         (negb (Std.empty (velocities pa))) (negb (Std.empty (accelerations pa))))
      (mkTrajPoint (map fst3 done ++ repeat 0%float count)
         (if Std.empty (velocities pa) then [] else map snd3 done ++ repeat 0%float count)
         (if Std.empty (accelerations pa) then [] else map thd3 done ++ repeat 0%float count)
         [] (time_from_start pa))
    = (vals <- mapM (combined_joint jn cur tin appr pa) (seq (List.length done) count) ;;
       Ret (combined_point pa (done ++ vals))).
Proof.
  induction count as [|count IH]; intros done.
  - simpl. unfold combined_point. rewrite !app_nil_r. reflexivity.
  - cbn [Std.for_loop seq mapM repeat].
    rewrite joint_step.
    destruct (combined_joint jn cur tin appr pa (List.length done)) as [val|]; [cbn [bind]|reflexivity].
    specialize (IH (done ++ [val])).
    rewrite length_app in IH. cbn [List.length] in IH.
    replace (List.length done + 1)%nat with (S (List.length done)) in IH by lia.
    rewrite IH.
    destruct (mapM _ _) as [vals|]; [cbn [bind]|reflexivity].
    now rewrite <- app_assoc.
Qed.

Lemma combineTrajectories_point_eq jn cur tin appr joint_dim pa :
  combineTrajectories_point jn cur tin appr joint_dim pa
  = (vals <- mapM (combined_joint jn cur tin appr pa) (seq 0 joint_dim) ;;
     Ret (combined_point pa vals)).
Proof.
  unfold combineTrajectories_point.
  pose proof (joint_loop jn cur tin appr pa joint_dim []) as H.
  cbn [List.length map app] in H. rewrite <- H. clear H.
  f_equal. unfold TrajPoint_default, Std.resize. simpl_point.
  cbn [List.length]. rewrite firstn_nil, Nat.sub_0_r. cbn [app].
  destruct (Std.empty (velocities pa)); destruct (Std.empty (accelerations pa));
    cbn [negb]; unfold set_time_from_start, set_accelerations, set_velocities,
      set_positions; simpl_point; cbn [List.length];
    rewrite ?firstn_nil, ?Nat.sub_0_r; reflexivity.
Qed.

Lemma last_default {A : Type} (l : list A) (a d d' : A) :
  last (a :: l) d = last (a :: l) d'.
Proof.
  revert a; induction l as [|b l IH]; intros a; [reflexivity|].
  change (last (b :: l) d = last (b :: l) d'). apply IH.
Qed.

Lemma last_app_cons {A : Type} (l1 l2 : list A) (y d : A) :
  last (l1 ++ y :: l2) d = last l2 y.
Proof.
  revert d; induction l1 as [|x l1 IH]; intros d.
  - cbn [app]. destruct l2 as [|z l2]; [reflexivity|].
    change (last (z :: l2) d = last (z :: l2) y). apply last_default.
  - cbn [app last]. destruct (l1 ++ y :: l2) eqn:E.
    + destruct l1; discriminate.
    + apply IH.
Qed.

Lemma back_app {A : Type} (l1 l2 : list A) :
  l2 <> [] -> Std.back (l1 ++ l2) = Std.back l2.
Proof.
  intros H. destruct l2 as [|y l2]; [congruence|].
  destruct l1 as [|x l1]; [reflexivity|].
  cbn [Std.back app]. f_equal. apply last_app_cons.
Qed.

Lemma pop_back_app {A : Type} (l1 l2 : list A) :
  l2 <> [] ->
  Std.pop_back (l1 ++ l2) = (kept <- Std.pop_back l2 ;; Ret (l1 ++ kept)).
Proof.
  intros H. destruct l2 as [|y l2]; [congruence|].
  cbn [Std.pop_back bind].
  destruct (l1 ++ y :: l2) eqn:E.
  - destruct l1; discriminate.
  - rewrite <- E. unfold Std.pop_back at 1. rewrite E. rewrite <- E.
    f_equal. apply removelast_app. discriminate.
Qed.

Lemma back_nonempty {A : Type} (l : list A) :
  l <> [] -> exists a, Std.back l = Ret a.
Proof. destruct l; [congruence|]. simpl. eauto. Qed.

Lemma pop_back_nonempty {A : Type} (l : list A) :
  l <> [] -> Std.pop_back l = Ret (removelast l).
Proof. destruct l; [congruence|]. reflexivity. Qed.

Lemma combineTrajectories_eq jn cur tin appr out0 :
  combineTrajectories jn cur tin appr out0
  = (first_in <- Std.front tin ;;
     merged <- mapM (combineTrajectories_point jn cur tin appr
                       (List.length (positions first_in)))
                    (JointTrajectory.points appr) ;;
     if (1 =? List.length tin)%nat then Ret (out0 ++ merged)
     else
       last_out <- Std.back (out0 ++ merged) ;;
       kept <- Std.pop_back (out0 ++ merged) ;;
       Ret (kept ++ map (delay (time_from_start last_out)) tin)).
Proof.
  unfold combineTrajectories.
  destruct (Std.front tin) as [fi|]; [cbn [bind]|reflexivity].
  rewrite for_each_push_back.
  destruct (mapM _ _) as [merged|]; [cbn [bind]|reflexivity].
  destruct (1 =? List.length tin)%nat; [reflexivity|].
  destruct (Std.back (out0 ++ merged)) as [lo|]; [cbn [bind]|reflexivity].
  destruct (Std.pop_back (out0 ++ merged)) as [kept|]; [cbn [bind]|reflexivity].
  apply for_each_push_back_pure.
Qed.

Lemma combineTrajectories_frame jn cur tin appr out0 :
  JointTrajectory.points appr <> [] ->
  combineTrajectories jn cur tin appr out0
  = (appended <- combineTrajectories jn cur tin appr [] ;;
     Ret (out0 ++ appended)).
Proof.
  intros Hne. rewrite !combineTrajectories_eq.
  destruct (Std.front tin) as [fi|]; [cbn [bind]|reflexivity].
  destruct (mapM _ _) as [merged|] eqn:E; [cbn [bind]|reflexivity].
  assert (Hm : merged <> []).
  { apply mapM_length in E. destruct merged; [|discriminate].
    destruct (JointTrajectory.points appr); [congruence|discriminate]. }
  cbn [app].
  destruct (1 =? List.length tin)%nat; [reflexivity|].
  rewrite back_app, pop_back_app by assumption.
  destruct (Std.back merged) as [lo|]; [cbn [bind]|reflexivity].
  destruct (Std.pop_back merged) as [kept|]; [cbn [bind]|reflexivity].
  now rewrite app_assoc.
Qed.

Lemma combineTrajectories_length jn cur tin appr out0 out :
  JointTrajectory.points appr <> [] ->
  combineTrajectories jn cur tin appr out0 = Ret out ->
  List.length out
  = (List.length out0
     + if (1 =? List.length tin)%nat
       then List.length (JointTrajectory.points appr)
       else List.length (JointTrajectory.points appr) - 1 + List.length tin)%nat.
Proof.
  intros Hne H. rewrite combineTrajectories_frame in H by assumption.
  inv_bind H. injection H as <-. rename x into appended.
  rewrite length_app. f_equal.
  rewrite combineTrajectories_eq in E.
  inv_bind E. inv_bind E. apply mapM_length in E1. cbn [app] in E.
  destruct (1 =? List.length tin)%nat.
  - injection E as <-. assumption.
  - inv_bind E. inv_bind E. injection E as <-.
    rewrite length_app, length_map. f_equal.
    match goal with
    | H : Std.pop_back ?l = Ret _ |- _ =>
        rewrite pop_back_nonempty in H
          by (intros ->; discriminate);
        injection H as <-
    end.
    rewrite removelast_firstn_len, length_firstn. rewrite <- E1. lia.
Qed.

Lemma combined_joint_total jn cur tin appr pa first_in i :
  hd_error tin = Some first_in ->
  (List.length (positions first_in) <= List.length jn)%nat ->
  (List.length (positions first_in) <= List.length cur)%nat ->
  approach_point_fits (List.length (JointTrajectory.joint_names appr)) pa ->
  JointTrajectory.points appr <> [] ->
  (i < List.length (positions first_in))%nat ->
  exists val, combined_joint jn cur tin appr pa i = Ret val.
Proof.
  intros Hhd Hjn Hcur (Hp & Hv & Ha) Hne Hi.
  unfold combined_joint.
  destruct (at_lt jn i) as [name ->]; [lia|]. cbn [bind].
  destruct (Std.find _ name) as [id|] eqn:Ef.
  - apply find_Some_nth in Ef.
    assert (Hid : (id < List.length (JointTrajectory.joint_names appr))%nat).
    { apply nth_error_Some. congruence. }
    destruct (at_lt (positions pa) id) as [p ->]; [lia|]. cbn [bind].
    assert (Hv' : exists v, (if Std.empty (velocities pa) then Ret 0%float
                             else Std.at_ (velocities pa) id) = Ret v).
    { destruct Hv as [-> | Hv]; [simpl; eauto|].
      destruct (Std.empty (velocities pa)); eauto. apply at_lt. lia. }
    assert (Ha' : exists a, (if Std.empty (accelerations pa) then Ret 0%float
                             else Std.at_ (accelerations pa) id) = Ret a).
    { destruct Ha as [-> | Ha]; [simpl; eauto|].
      destruct (Std.empty (accelerations pa)); eauto. apply at_lt. lia. }
    destruct Hv' as [v ->]. destruct Ha' as [a ->]. cbn [bind]. eauto.
  - destruct (back_nonempty _ Hne) as [la ->]. cbn [bind].
    destruct (at_lt cur i) as [p_min ->]; [lia|]. cbn [bind].
    assert (Hf : Std.front tin = Ret first_in).
    { destruct tin; [discriminate|]. injection Hhd as ->. reflexivity. }
    rewrite Hf. cbn [bind].
    destruct (at_lt (positions first_in) i) as [p_max ->]; [lia|]. cbn [bind].
    eauto.
Qed.

Lemma combineTrajectories_total jn cur tin appr out0 :
  combine_ready jn cur tin appr ->
  JointTrajectory.points appr <> [] ->
  exists out, combineTrajectories jn cur tin appr out0 = Ret out.
Proof.
  intros (first_in & Hhd & Hjn & Hcur & Hfits) Hne.
  rewrite combineTrajectories_eq.
  assert (Hf : Std.front tin = Ret first_in).
  { destruct tin; [discriminate|]. injection Hhd as ->. reflexivity. }
  rewrite Hf. cbn [bind].
  destruct (mapM_total (combineTrajectories_point jn cur tin appr
                          (List.length (positions first_in)))
                       (JointTrajectory.points appr)) as [merged Hm].
  { intros pa Hin. rewrite combineTrajectories_point_eq.
    destruct (mapM_total (combined_joint jn cur tin appr pa)
                         (seq 0 (List.length (positions first_in)))) as [vals Hvals].
    - intros i Hi. apply in_seq in Hi.
      apply combined_joint_total with (first_in := first_in); auto; try lia.
      rewrite Forall_forall in Hfits. auto.
    - rewrite Hvals. cbn [bind]. eauto. }
  rewrite Hm. cbn [bind].
  destruct (1 =? List.length tin)%nat; [eauto|].
  assert (Hne' : out0 ++ merged <> []).
  { apply mapM_length in Hm. destruct merged.
    - destruct (JointTrajectory.points appr); [congruence|discriminate].
    - destruct out0; discriminate. }
  destruct (back_nonempty _ Hne') as [lo ->]. cbn [bind].
  rewrite pop_back_nonempty by assumption. cbn [bind]. eauto.
Qed.

(** ** Failures of [prependApproach] *)

Lemma front_hd_error {A : Type} (l : list A) (a : A) :
  hd_error l = Some a -> Std.front l = Ret a /\ Std.empty l = false.
Proof. destruct l; [discriminate|]. intros [= ->]. split; reflexivity. Qed.

Lemma empty_false_iff {A : Type} (l : list A) : Std.empty l = false <-> l <> [].
Proof. destruct l; simpl; split; congruence. Qed.

Lemma prependApproach_false moveit self jn cur skip tin traj_out log out log' :
  prependApproach moveit self jn cur skip tin traj_out log = Ret (false, out, log') ->
  out = traj_out.
Proof.
  unfold prependApproach. intros H.
  destruct (Std.empty tin); [discriminate|].
  inv_bind H.
  destruct (negb _); [congruence|].
  destruct (negb _); [congruence|].
  destruct (negb skip && _); [congruence|].
  inv_bind H. destruct x0 as [[branch|] log1].
  - inv_bind H. discriminate.
  - congruence.
Qed.

(** C7: a call of [prependApproach] that fails in one of the four ways of the
    specification (size mismatch, planning requested while disabled, no
    eligible group, every planner attempt failed) returns false and leaves
    [traj_out] as the caller passed it; and whenever the call returns false,
    [traj_out] is unmodified. *)
Theorem prependApproach_failure moveit self jn cur skip tin traj_out log :
  (forall f, fails_with moveit self jn cur skip tin log f ->
             exists log', prependApproach moveit self jn cur skip tin traj_out log
                          = Ret (false, traj_out, log'))
  /\ (forall out log',
        prependApproach moveit self jn cur skip tin traj_out log
        = Ret (false, out, log') -> out = traj_out).
Proof.
  split; [|intros out log'; apply prependApproach_false].
  intros f (first_in & Hhd & Hf).
  apply front_hd_error in Hhd. destruct Hhd as [Hfront Hempty].
  unfold prependApproach. rewrite Hempty, Hfront. cbn [bind].
  destruct f.
  - destruct Hf as [Hf|Hf].
    + apply Nat.eqb_neq in Hf. rewrite Hf. simpl. eauto.
    + destruct (_ =? List.length jn)%nat; simpl; eauto.
      apply Nat.eqb_neq in Hf. rewrite Hf. simpl. eauto.
  - destruct Hf as [-> ->].
    destruct (_ =? List.length jn)%nat; simpl; eauto.
    destruct (_ =? List.length cur)%nat; simpl; eauto.
  - destruct Hf as (H1 & H2 & -> & -> & maxg & maxv & ming & Hg & Hne & Hv).
    rewrite <- H1, <- H2, !Nat.eqb_refl. cbn [negb andb].
    unfold prependApproach_plan. rewrite Hfront. cbn [bind].
    unfold computeApproach. rewrite Hg. cbn [bind].
    apply empty_false_iff in Hne. rewrite Hne, Hv. cbn [Std.empty bind negb].
    eauto.
  - destruct Hf as (H1 & H2 & -> & -> & maxg & maxv & ming & traj & log' & Hg & Hne & Hp).
    rewrite <- H1, <- H2, !Nat.eqb_refl. cbn [negb andb].
    unfold prependApproach_plan. rewrite Hfront. cbn [bind].
    unfold computeApproach. rewrite Hg. cbn [bind].
    apply empty_false_iff in Hne. rewrite Hne.
    destruct (Std.empty (getValidMoveGroups self ming maxg)) eqn:Ev.
    + destruct (getValidMoveGroups self ming maxg); [|discriminate].
      simpl in Hp. injection Hp as <- <-. cbn [bind negb]. eauto.
    + rewrite Hp. cbn [bind negb]. eauto.
Qed.

Lemma prependApproach_failure_witness :
  exists log',
    prependApproach failing_moveit example_planner ["j1"; "j2"; "j3"]
                    [0%float; 0%float; 0%float] false
                    [waypoint [0%float; 1%float; 0%float] 0]
                    [waypoint [9%float; 9%float; 9%float] 7] []
    = Ret (false, [waypoint [9%float; 9%float; 9%float] 7], log').
Proof.
  destruct (prependApproach_failure failing_moveit example_planner
              ["j1"; "j2"; "j3"] [0%float; 0%float; 0%float] false
              [waypoint [0%float; 1%float; 0%float] 0]
              [waypoint [9%float; 9%float; 9%float] 7] []) as [Hfail _].
  apply (Hfail PlanningFailed).
  exists (waypoint [0%float; 1%float; 0%float] 0).
  split; [reflexivity|]. cbn zeta.
  split; [reflexivity|]. split; [reflexivity|].
  split; [reflexivity|]. split; [reflexivity|].
  eexists _, _, _, _, _. split; [reflexivity|].
  split; [discriminate|]. vm_compute. reflexivity.
Defined.

(** C8: with an empty input trajectory [prependApproach] returns true and
    the output is the input, whatever the joint names, the current
    positions, the flag, the configuration and the content of [traj_out]
    are: nothing is validated, no move group is called and no time is
    changed. *)
Theorem prependApproach_empty moveit self jn cur skip tin traj_out log
        (Hempty : tin = []) :
  prependApproach moveit self jn cur skip tin traj_out log
  = Ret (true, tin, log).
Proof. subst tin. unfold prependApproach. cbn [Std.empty]. reflexivity. Qed.

Lemma prependApproach_empty_witness :
  prependApproach failing_moveit disabled_planner ["j1"] [] false []
                  [waypoint [9%float] 0] []
  = Ret (true, [], []).
Proof.
  exact (prependApproach_empty failing_moveit disabled_planner ["j1"] [] false
           [] [waypoint [9%float] 0] [] eq_refl).
Defined.

(** ** The output of [combineTrajectories] *)

(** C2 (amended): [combineTrajectories] with a non-empty approach returns on
    arguments of matching sizes, and what it returns has the length of the
    [traj_out] it was given plus [len(approach) - 1 + len(input)] when the
    input has more than one point, plus [len(approach)] when it has one. *)
Theorem combineTrajectories_output_length jn cur tin appr traj_out
        (Happr : JointTrajectory.points appr <> []) :
  (combine_ready jn cur tin appr ->
   exists out, combineTrajectories jn cur tin appr traj_out = Ret out)
  /\ (forall out,
        combineTrajectories jn cur tin appr traj_out = Ret out ->
        ((1 < List.length tin)%nat ->
         List.length out
         = (List.length traj_out
            + (List.length (JointTrajectory.points appr) - 1 + List.length tin))%nat)
        /\ (List.length tin = 1%nat ->
            List.length out
            = (List.length traj_out
               + List.length (JointTrajectory.points appr))%nat)).
Proof.
  split.
  - intros Hr. now apply combineTrajectories_total.
  - intros out H. apply combineTrajectories_length in H; [|assumption].
    split; intros Hl.
    + destruct (Nat.eqb_spec 1 (List.length tin)); [lia|]. assumption.
    + rewrite Hl in H. assumption.
Qed.

Lemma example_ready :
  combine_ready example_joints example_current example_motion example_approach.
Proof.
  exists (waypoint [1%float; 2%float] 0).
  split; [reflexivity|]. split; [cbn; lia|]. split; [cbn; lia|].
  unfold approach_point_fits.
  repeat (apply Forall_cons; [cbn; auto|]). apply Forall_nil.
Qed.

Lemma combineTrajectories_output_length_witness :
  JointTrajectory.points example_approach <> []
  /\ combine_ready example_joints example_current example_motion example_approach
  /\ exists out,
      combineTrajectories example_joints example_current example_motion
                          example_approach [] = Ret out
      /\ List.length out = 4%nat.
Proof.
  assert (Hne : JointTrajectory.points example_approach <> []) by discriminate.
  split; [exact Hne|]. split; [exact example_ready|].
  destruct (combineTrajectories_output_length example_joints example_current
              example_motion example_approach [] Hne) as [Htot Hlen].
  destruct (Htot example_ready) as [out Hout].
  exists out. split; [exact Hout|].
  destruct (Hlen out Hout) as [Hmany _].
  rewrite Hmany; [reflexivity | cbn; lia].
Defined.

(** C2 as stated fails when the output vector is not empty at the call: one
    waypoint in [traj_out], three in the approach and two in the input give
    five waypoints, not four. *)
Lemma combineTrajectories_length_counterexample :
  exists out,
    combineTrajectories example_joints example_current example_motion
                        example_approach [waypoint [9%float; 9%float] 0] = Ret out
    /\ (1 < List.length example_motion)%nat
    /\ List.length out = 5%nat
    /\ (List.length (JointTrajectory.points example_approach) - 1
        + List.length example_motion = 4)%nat.
Proof.
  eexists. split; [vm_compute; reflexivity|]. cbn. repeat split; lia.
Qed.

(** C10: [combineTrajectories] with a non-empty approach appends to
    [traj_out]: the result is the vector it was given followed by what the
    call appends to an empty vector. [prependApproach] passes its own
    [traj_out] to it as it is. *)
Theorem combineTrajectories_appends moveit self jn cur tin appr traj_out
        (Happr : JointTrajectory.points appr <> []) :
  combineTrajectories jn cur tin appr traj_out
  = (appended <- combineTrajectories jn cur tin appr [] ;;
     Ret (traj_out ++ appended))
  /\ (forall first_in log log',
        hd_error tin = Some first_in ->
        computeApproach moveit self jn cur (positions first_in) log
        = Ret (true, appr, log') ->
        prependApproach_plan moveit self jn cur tin traj_out log
        = (appended <- combineTrajectories jn cur tin appr [] ;;
           Ret (Some (traj_out ++ appended), log'))).
Proof.
  split; [now apply combineTrajectories_frame|].
  intros first_in log log' Hhd Hc.
  apply front_hd_error in Hhd. destruct Hhd as [Hfront _].
  unfold prependApproach_plan. rewrite Hfront. cbn [bind]. rewrite Hc.
  cbn [bind negb]. apply empty_false_iff in Happr. rewrite Happr.
  rewrite combineTrajectories_frame by now apply empty_false_iff.
  destruct (combineTrajectories jn cur tin appr []); reflexivity.
Qed.

Lemma combineTrajectories_appends_witness :
  JointTrajectory.points example_approach <> []
  /\ exists appended,
      combineTrajectories example_joints example_current example_motion
                          example_approach [] = Ret appended
      /\ combineTrajectories example_joints example_current example_motion
                             example_approach [waypoint [9%float; 9%float] 7]
         = Ret (waypoint [9%float; 9%float] 7 :: appended).
Proof.
  assert (Hne : JointTrajectory.points example_approach <> []) by discriminate.
  split; [exact Hne|].
  destruct (combineTrajectories_appends (mkMoveIt (fun _ _ _ _ => true)
              (fun _ _ => (SUCCESS, example_approach)))
              (mkApproachPlanner milli 0.5%float 0%float false [] [])
              example_joints example_current example_motion example_approach
              [waypoint [9%float; 9%float] 7] Hne) as [Hframe _].
  destruct (combineTrajectories example_joints example_current example_motion
                                example_approach []) as [appended|] eqn:E;
    [|vm_compute in E; discriminate E].
  exists appended. split; [reflexivity|]. rewrite Hframe. reflexivity.
Defined.

(** ** Joints that the approach does not plan *)

Lemma Prim2SF_zero : Prim2SF 0%float = S754_zero false.
Proof. reflexivity. Qed.

Lemma sub_zero_r (x : float) : (x - 0)%float = x.
Proof.
  apply Prim2SF_inj. rewrite sub_spec, Prim2SF_zero.
  unfold SF64sub, SFsub.
  destruct (Prim2SF x) as [[]|[]| |]; reflexivity.
Qed.

Lemma div_zero_not_finite (d : float) : finite (d / 0)%float = false.
Proof.
  unfold finite. rewrite div_spec, Prim2SF_zero.
  unfold SF64div, SFdiv.
  destruct (Prim2SF d) as [[]|[]| |[]]; reflexivity.
Qed.

Lemma mul_not_finite (x t : float) :
  finite x = false -> finite (x * t)%float = false.
Proof.
  unfold finite. rewrite mul_spec. unfold SF64mul, SFmul.
  destruct (Prim2SF x) as [sx|sx| |sx mx ex]; intros H; try discriminate H;
    destruct (Prim2SF t) as [st|st| |st mt et_]; reflexivity.
Qed.

Lemma add_not_finite (p x : float) :
  finite x = false -> finite (p + x)%float = false.
Proof.
  unfold finite. rewrite add_spec. unfold SF64add, SFadd.
  destruct (Prim2SF x) as [sx|sx| |sx mx ex]; intros H; try discriminate H;
    destruct (Prim2SF p) as [sp|sp| |sp mp ep]; try reflexivity;
    destruct sp, sx; reflexivity.
Qed.

Lemma seconds_zero : Duration.seconds 0 = 0%float.
Proof. reflexivity. Qed.

Lemma nth_error_seq_0 (n i : nat) : (i < n)%nat -> nth_error (seq 0 n) i = Some i.
Proof.
  intros H. rewrite nth_error_nth' with (d := O) by now rewrite length_seq.
  now rewrite seq_nth.
Qed.

(** The entries of a joint that the approach does not plan. *)
Lemma combined_joint_unplanned jn cur tin appr pa i val name last_appr :
  combined_joint jn cur tin appr pa i = Ret val ->
  nth_error jn i = Some name ->
  ~ In name (JointTrajectory.joint_names appr) ->
  Std.back (JointTrajectory.points appr) = Ret last_appr ->
  exists first_in start target,
    hd_error tin = Some first_in
    /\ nth_error cur i = Some start
    /\ nth_error (positions first_in) i = Some target
    /\ let T := Duration.seconds (time_from_start last_appr) in
       let t := Duration.seconds (time_from_start pa) in
       let slope := ((target - start) / T)%float in
       val = ((start + slope * t)%float, slope, 0%float).
Proof.
  intros Hj Hname Hnot Hback. unfold combined_joint in Hj.
  apply at_Ret in Hname. rewrite Hname in Hj. cbn [bind] in Hj.
  apply find_None_iff in Hnot. rewrite Hnot in Hj.
  rewrite Hback in Hj. cbn [bind] in Hj.
  destruct (Std.at_ cur i) as [start|] eqn:Hs; [cbn [bind] in Hj|discriminate].
  destruct (Std.front tin) as [first_in|] eqn:Hf; [cbn [bind] in Hj|discriminate].
  destruct (Std.at_ (positions first_in) i) as [target|] eqn:Ht;
    [cbn [bind] in Hj|discriminate].
  rewrite sub_zero_r in Hj. injection Hj as <-.
  exists first_in, start, target.
  apply at_Ret in Hs, Ht. unfold Std.front in Hf. apply at_Ret in Hf.
  destruct tin; [discriminate|]. cbn in Hf. injection Hf as ->.
  repeat split; auto.
Qed.

Lemma combined_point_entries jn cur tin appr joint_dim pa point i :
  combineTrajectories_point jn cur tin appr joint_dim pa = Ret point ->
  (i < joint_dim)%nat ->
  exists val,
    combined_joint jn cur tin appr pa i = Ret val
    /\ nth_error (positions point) i = Some (fst3 val)
    /\ (velocities pa <> [] -> nth_error (velocities point) i = Some (snd3 val))
    /\ (velocities pa = [] -> velocities point = [])
    /\ (accelerations pa <> [] ->
        nth_error (accelerations point) i = Some (thd3 val))
    /\ (accelerations pa = [] -> accelerations point = []).
Proof.
  intros Hp Hi.
  rewrite combineTrajectories_point_eq in Hp. inv_bind Hp. injection Hp as <-.
  rename x into vals.
  destruct (mapM_nth_error _ _ _ E i i (nth_error_seq_0 _ _ Hi)) as (val & Hval & Hj).
  exists val. split; [assumption|].
  unfold combined_point. simpl_point.
  split; [rewrite nth_error_map, Hval; reflexivity|].
  split; [|split; [|split]].
  - intros Hv. apply empty_false_iff in Hv. rewrite Hv.
    rewrite nth_error_map, Hval. reflexivity.
  - intros ->. reflexivity.
  - intros Ha. apply empty_false_iff in Ha. rewrite Ha.
    rewrite nth_error_map, Hval. reflexivity.
  - intros ->. reflexivity.
Qed.

(** The waypoints that [combineTrajectories] builds, and where it leaves them. *)
Lemma combineTrajectories_built jn cur tin appr traj_out out first_in :
  hd_error tin = Some first_in ->
  combineTrajectories jn cur tin appr traj_out = Ret out ->
  exists merged,
    mapM (combineTrajectories_point jn cur tin appr
            (List.length (positions first_in)))
         (JointTrajectory.points appr) = Ret merged
    /\ forall k point,
        nth_error merged k = Some point ->
        List.length tin = 1%nat \/ (S k < List.length merged)%nat ->
        nth_error out (List.length traj_out + k) = Some point.
Proof.
  intros Hhd H. apply front_hd_error in Hhd. destruct Hhd as [Hfront _].
  rewrite combineTrajectories_eq, Hfront in H. cbn [bind] in H.
  inv_bind H. rename x into merged. exists merged. split; [reflexivity|].
  intros k point Hk Hkept.
  assert (Hlt : (k < List.length merged)%nat) by (apply nth_error_Some; congruence).
  destruct (Nat.eqb_spec 1 (List.length tin)) as [H1|H1].
  - injection H as <-. rewrite nth_error_app2 by lia.
    now replace (List.length traj_out + k - List.length traj_out)%nat with k by lia.
  - destruct Hkept as [Hkept|Hkept]; [lia|].
    inv_bind H. inv_bind H. injection H as <-.
    assert (Hne : traj_out ++ merged <> []).
    { destruct merged; [simpl in Hlt; lia|]. destruct traj_out; discriminate. }
    rewrite pop_back_nonempty in E1 by assumption. injection E1 as <-.
    rewrite removelast_app by (destruct merged; [simpl in Hlt; lia|discriminate]).
    rewrite <- app_assoc. rewrite nth_error_app2 by lia.
    replace (List.length traj_out + k - List.length traj_out)%nat with k by lia.
    rewrite nth_error_app1.
    + rewrite removelast_firstn_len. rewrite nth_error_firstn.
      destruct (Nat.ltb_spec k (Nat.pred (List.length merged))); [assumption|lia].
    + rewrite removelast_firstn_len, length_firstn. lia.
Qed.

(** C5: in the waypoint that [combineTrajectories] builds from the approach
    waypoint [pa], a joint that is not among the joints of the approach has
    the position [start + ((target - start) / T) * t], with [start] its
    current position, [target] its position in the first input waypoint,
    [T] the time of the last approach waypoint and [t] the time of [pa];
    its velocity is the slope [(target - start) / T] when [pa] has
    velocities, and its acceleration is 0 when [pa] has accelerations. The
    waypoint is at index [k] of what is appended to [traj_out], unless it is
    the last one and the input has several points. *)
Theorem combineTrajectories_interpolates jn cur tin appr traj_out out
        first_in last_appr k pa i name start target
        (Hout : combineTrajectories jn cur tin appr traj_out = Ret out)
        (Hhd : hd_error tin = Some first_in)
        (Hback : Std.back (JointTrajectory.points appr) = Ret last_appr)
        (Hk : nth_error (JointTrajectory.points appr) k = Some pa)
        (Hname : nth_error jn i = Some name)
        (Hnot : ~ In name (JointTrajectory.joint_names appr))
        (Hstart : nth_error cur i = Some start)
        (Htarget : nth_error (positions first_in) i = Some target) :
  let T := Duration.seconds (time_from_start last_appr) in
  let t := Duration.seconds (time_from_start pa) in
  let slope := ((target - start) / T)%float in
  exists point,
    combineTrajectories_point jn cur tin appr
      (List.length (positions first_in)) pa = Ret point
    /\ (List.length tin = 1%nat
        \/ (S k < List.length (JointTrajectory.points appr))%nat ->
        nth_error out (List.length traj_out + k) = Some point)
    /\ nth_error (positions point) i = Some (start + slope * t)%float
    /\ (velocities pa <> [] -> nth_error (velocities point) i = Some slope)
    /\ (velocities pa = [] -> velocities point = [])
    /\ (accelerations pa <> [] ->
        nth_error (accelerations point) i = Some 0%float)
    /\ (accelerations pa = [] -> accelerations point = []).
Proof.
  intros T t slope.
  destruct (combineTrajectories_built _ _ _ _ _ _ _ Hhd Hout) as (merged & Hm & Hat).
  destruct (mapM_nth_error _ _ _ Hm k pa Hk) as (point & Hpoint & Hbuilt).
  exists point. split; [assumption|]. split.
  { intros Hkept. apply Hat; [assumption|].
    rewrite (mapM_length _ _ _ Hm). assumption. }
  assert (Hi : (i < List.length (positions first_in))%nat)
    by (apply nth_error_Some; congruence).
  destruct (combined_point_entries _ _ _ _ _ _ _ i Hbuilt Hi)
    as (val & Hval & Hp & Hv1 & Hv2 & Ha1 & Ha2).
  destruct (combined_joint_unplanned _ _ _ _ _ _ _ _ _ Hval Hname Hnot Hback)
    as (first_in' & start' & target' & Hhd' & Hstart' & Htarget' & ->).
  assert (first_in' = first_in) by congruence. subst first_in'.
  assert (start' = start) by congruence. subst start'.
  assert (target' = target) by congruence. subst target'.
  cbn [fst3 snd3 thd3 fst snd] in *. auto 10.
Qed.

Lemma combineTrajectories_interpolates_witness :
  exists out point,
    combineTrajectories example_joints example_current example_motion
                        example_approach [] = Ret out
    /\ nth_error out 1 = Some point
    /\ nth_error (positions point) 1 = Some 1%float
    /\ nth_error (velocities point) 1 = Some 0.5%float.
Proof.
  destruct (combineTrajectories example_joints example_current example_motion
              example_approach []) as [out|] eqn:Hout;
    [|vm_compute in Hout; discriminate Hout].
  assert (Hnot : ~ In "jx" (JointTrajectory.joint_names example_approach)).
  { cbn. intros [H|[]]. discriminate H. }
  destruct (combineTrajectories_interpolates
              example_joints example_current example_motion example_approach
              [] out (waypoint [1%float; 2%float] 0)
              (waypoint_v [1%float] [0%float] 4000000000)
              1%nat (waypoint_v [0.5%float] [1%float] 2000000000)
              1%nat "jx" 0%float 2%float
              Hout eq_refl eq_refl eq_refl eq_refl Hnot eq_refl eq_refl)
    as (point & _ & Hat & Hp & Hv & _).
  exists out, point. split; [reflexivity|].
  split; [apply Hat; right; cbn; lia|].
  split; [exact Hp|]. apply Hv. discriminate.
Defined.

(** C9: when the last waypoint of the approach has time zero, the call of
    [combineTrajectories] still returns, and in every waypoint it builds a
    joint outside the joints of the approach has a position that is not
    finite (NaN or an infinity), and a velocity that is not finite when the
    approach waypoint has velocities: the slope is a division by zero. *)
Theorem combineTrajectories_zero_duration jn cur tin appr traj_out
        first_in last_appr k pa i name
        (Hready : combine_ready jn cur tin appr)
        (Hhd : hd_error tin = Some first_in)
        (Hback : Std.back (JointTrajectory.points appr) = Ret last_appr)
        (Hzero : time_from_start last_appr = 0)
        (Hk : nth_error (JointTrajectory.points appr) k = Some pa)
        (Hname : nth_error jn i = Some name)
        (Hi : (i < List.length (positions first_in))%nat)
        (Hnot : ~ In name (JointTrajectory.joint_names appr)) :
  exists out point p,
    combineTrajectories jn cur tin appr traj_out = Ret out
    /\ combineTrajectories_point jn cur tin appr
         (List.length (positions first_in)) pa = Ret point
    /\ (List.length tin = 1%nat
        \/ (S k < List.length (JointTrajectory.points appr))%nat ->
        nth_error out (List.length traj_out + k) = Some point)
    /\ nth_error (positions point) i = Some p
    /\ finite p = false
    /\ (velocities pa <> [] ->
        exists v, nth_error (velocities point) i = Some v /\ finite v = false).
Proof.
  assert (Hne : JointTrajectory.points appr <> []).
  { intros E. rewrite E in Hk. destruct k; discriminate. }
  destruct (combineTrajectories_total jn cur tin appr traj_out Hready Hne)
    as [out Hout].
  destruct (combineTrajectories_built _ _ _ _ _ _ _ Hhd Hout) as (merged & Hm & Hat).
  destruct (mapM_nth_error _ _ _ Hm k pa Hk) as (point & Hpoint & Hbuilt).
  destruct (combined_point_entries _ _ _ _ _ _ _ i Hbuilt Hi)
    as (val & Hval & Hp & Hv1 & _).
  destruct (combined_joint_unplanned _ _ _ _ _ _ _ _ _ Hval Hname Hnot Hback)
    as (first_in' & start & target & _ & _ & _ & ->).
  rewrite Hzero, seconds_zero in Hp, Hv1. cbn [fst3 snd3 fst snd] in Hp, Hv1.
  eexists out, point, _. split; [assumption|]. split; [assumption|]. split.
  { intros Hkept. apply Hat; [assumption|].
    rewrite (mapM_length _ _ _ Hm). assumption. }
  split; [exact Hp|]. split.
  - apply add_not_finite, mul_not_finite, div_zero_not_finite.
  - intros Hv. eexists. split; [apply Hv1; assumption|].
    apply div_zero_not_finite.
Qed.

Lemma stalled_ready :
  combine_ready example_joints example_current single_motion stalled_approach.
Proof.
  exists (waypoint [1%float; 2%float] 0).
  split; [reflexivity|]. split; [cbn; lia|]. split; [cbn; lia|].
  unfold approach_point_fits.
  repeat (apply Forall_cons; [cbn; auto|]). apply Forall_nil.
Qed.

Lemma combineTrajectories_zero_duration_witness :
  exists out point p,
    combineTrajectories example_joints example_current single_motion
                        stalled_approach [] = Ret out
    /\ nth_error out 0 = Some point
    /\ nth_error (positions point) 1 = Some p
    /\ finite p = false.
Proof.
  assert (Hnot : ~ In "jx" (JointTrajectory.joint_names stalled_approach)).
  { cbn. intros [H|[]]. discriminate H. }
  assert (Hi : (1 < List.length (positions (waypoint [1%float; 2%float] 0)))%nat)
    by (cbn; lia).
  destruct (combineTrajectories_zero_duration
              example_joints example_current single_motion stalled_approach []
              (waypoint [1%float; 2%float] 0) (waypoint [1%float] 0)
              0%nat (waypoint [1%float] 0) 1%nat "jx"
              stalled_ready eq_refl eq_refl eq_refl eq_refl eq_refl Hi Hnot)
    as (out & point & p & Hout & _ & Hat & Hp & Hfin & _).
  exists out, point, p. split; [exact Hout|].
  split; [apply Hat; left; reflexivity|]. split; assumption.
Defined.

(** ** The calls on the move groups *)




Lemma skipn_nth_error {A : Type} (l : list A) (n : nat) (x : A) :
  nth_error l n = Some x -> skipn n l = x :: skipn (S n) l.
Proof.
  revert n; induction l as [|y l IH]; intros [|n] H; try discriminate.
  - now injection H as ->.
  - cbn in H. apply IH in H. cbn [skipn]. rewrite H. reflexivity.
Qed.

Lemma nth_error_combine {A B : Type} (l1 : list A) (l2 : list B) n a b :
  nth_error l1 n = Some a -> nth_error l2 n = Some b ->
  nth_error (combine l1 l2) n = Some (a, b).
Proof.
  revert l2 n; induction l1 as [|x l1 IH]; intros [|y l2] [|n] H1 H2;
    try discriminate; cbn in *.
  - congruence.
  - auto.
Qed.

(** The calls of the loop of [planApproach] that sets the goal. *)
Lemma planApproach_goal_calls moveit jn jv g count :
  forall first log ok log',
    planApproach_goal moveit jn jv g count first log = Ret (ok, log') ->
    exists calls k,
      log' = log ++ calls
      /\ forallb (fun e => negb (is_start e) && negb (is_plan e)) calls = true
      /\ Forall (fun e => group_of e = g) calls
      /\ requested_goals calls = firstn k (skipn first (combine jn jv))
      /\ (k <= count)%nat
      /\ (ok = true -> k = count).
Proof.
  induction count as [|count IH]; intros first log ok log' H; cbn in H.
  - injection H as <- <-. exists [], 0%nat. rewrite app_nil_r.
    repeat split; auto.
  - inv_bind H. inv_bind H. rename x into name, x0 into value.
    apply at_Ret in E, E0.
    pose proof (skipn_nth_error _ _ _ (nth_error_combine _ _ _ _ _ E E0)) as Hs.
    destruct (setJointValueTarget moveit log g name value) eqn:Hok.
    + apply IH in H.
      destruct H as (calls & k & -> & Hc & Hg & Hr & Hk & Hall).
      exists (SetJointValueTarget g name value true :: calls), (S k).
      rewrite <- app_assoc. cbn [app].
      split; [reflexivity|]. split; [exact Hc|].
      split; [constructor; auto|]. split.
      { cbn [requested_goals flat_map app]. rewrite Hs. cbn [firstn].
        f_equal. exact Hr. }
      split; [lia|]. intros Ht. f_equal. auto.
    + injection H as <- <-.
      exists [SetJointValueTarget g name value false], 1%nat.
      split; [reflexivity|]. split; [reflexivity|].
      split; [constructor; auto|]. split.
      { cbn. rewrite Hs. reflexivity. }
      split; [lia|]. discriminate.
Qed.

(** The calls of one attempt. *)
Lemma planApproach_calls moveit jn jv g traj log ok traj' log' :
  planApproach moveit jn jv g traj log = Ret (ok, traj', log') ->
  exists calls k,
    log' = log ++ SetStartStateToCurrentState g :: calls
    /\ forallb (fun e => negb (is_start e)) calls = true
    /\ Forall (fun e => group_of e = g) calls
    /\ requested_goals calls = firstn k (combine jn jv)
    /\ (planner_invoked calls = true -> requested_goals calls = combine jn jv)
    /\ attempt_succeeded calls = ok
    /\ (ok = false -> traj' = traj).
Proof.
  unfold planApproach. intros H. inv_bind H. destruct x as [goal_ok log1].
  apply planApproach_goal_calls in E.
  destruct E as (calls & k & -> & Hc & Hg & Hr & Hk & Hall).
  cbn [skipn] in Hr.
  assert (Hc' : forallb (fun e => negb (is_start e)) calls = true).
  { rewrite forallb_forall in *. intros e He. apply Hc in He.
    now apply andb_true_iff in He. }
  assert (Hnp : planner_invoked calls = false).
  { unfold planner_invoked. apply not_true_is_false. intros He.
    apply existsb_exists in He. destruct He as (e & He & Hp).
    rewrite forallb_forall in Hc. apply Hc in He. rewrite Hp in He.
    rewrite andb_false_r in He. discriminate. }
  assert (Hns : attempt_succeeded calls = false).
  { unfold attempt_succeeded. apply not_true_is_false. intros He.
    apply existsb_exists in He. destruct He as (e & He & Hp).
    rewrite forallb_forall in Hc. apply Hc in He.
    destruct e; discriminate. }
  assert (Hrg : forall e, requested_goals (calls ++ [e]) =
                          requested_goals calls ++ requested_goals [e]).
  { intros e. unfold requested_goals. now rewrite flat_map_app. }
  destruct goal_ok; cbn [negb] in H.
  - specialize (Hall eq_refl). subst k.
    destruct (plan moveit _ g) as [planning_ok plan_trajectory] eqn:Hplan.
    assert (Hfull : requested_goals calls = combine jn jv).
    { rewrite Hr. apply firstn_all2. rewrite length_combine. lia. }
    assert (Hcalls : forall e, is_plan e = true -> group_of e = g ->
              attempt_succeeded (calls ++ [e]) = plan_succeeded e
              /\ forallb (fun e => negb (is_start e)) (calls ++ [e]) = true
              /\ Forall (fun e => group_of e = g) (calls ++ [e])
              /\ requested_goals (calls ++ [e]) = combine jn jv).
    { intros e Hp Hge. unfold attempt_succeeded. rewrite existsb_app.
      fold (attempt_succeeded calls). rewrite Hns. cbn. rewrite orb_false_r.
      split; [reflexivity|]. rewrite forallb_app, Hc'. cbn.
      destruct e; try discriminate. cbn. split; [reflexivity|].
      split; [apply Forall_app; auto|].
      rewrite Hrg. cbn. now rewrite app_nil_r. }
    destruct (Hcalls (Plan g planning_ok plan_trajectory) eq_refl eq_refl)
      as (Hs & Hst & Hgr & Hrq).
    exists (calls ++ [Plan g planning_ok plan_trajectory]), (List.length jn).
    cbn [plan_succeeded] in Hs.
    assert (Hk' : requested_goals (calls ++ [Plan g planning_ok plan_trajectory])
                  = firstn (List.length jn) (combine jn jv)).
    { rewrite Hrq. symmetry. apply firstn_all2. rewrite length_combine. lia. }
    destruct (planning_ok =? SUCCESS) eqn:Hcode; cbn [negb] in H.
    + destruct (Std.empty (JointTrajectory.points plan_trajectory)) eqn:He;
        injection H as <- <- <-; rewrite <- !app_assoc; cbn [app] in *;
        repeat split; auto; discriminate.
    + injection H as <- <- <-. rewrite <- !app_assoc. cbn [app] in *.
      repeat split; auto.
  - injection H as <- <- <-. exists calls, k.
    rewrite <- app_assoc. cbn [app]. repeat split; auto.
    rewrite Hnp. discriminate.
Qed.


(** ** The selection of the move groups *)


Lemma ltb_lt a b : String.ltb a b = true <-> String_as_OT.lt a b.
Proof.
  unfold String.ltb. rewrite <- String_as_OT.cmp_lt. unfold String_as_OT.cmp.
  destruct (String.compare a b); split; congruence.
Qed.

Lemma name_lt_trans a b c : name_lt a b -> name_lt b c -> name_lt a c.
Proof.
  unfold name_lt. rewrite !ltb_lt. apply String_as_OT.lt_trans.
Qed.

Lemma name_lt_irrefl a : ~ name_lt a a.
Proof.
  unfold name_lt. rewrite ltb_lt. intros H.
  apply String_as_OT.lt_not_eq in H. apply H. reflexivity.
Qed.

Lemma name_trichotomy a b : name_lt a b \/ a = b \/ name_lt b a.
Proof.
  unfold name_lt, String.ltb.
  pose proof (String.compare_antisym a b) as Ha.
  destruct (String.compare a b) eqn:E.
  - right. left. now apply String.compare_eq_iff.
  - left. reflexivity.
  - right. right. destruct (String.compare b a); try discriminate Ha.
    reflexivity.
Qed.

Lemma name_le_iff a b : name_le a b <-> name_lt a b \/ a = b.
Proof.
  unfold name_le. split.
  - intros H. destruct (name_trichotomy a b) as [H1|[H1|H1]]; auto.
    unfold name_lt in H1. congruence.
  - intros [H| ->].
    + apply not_true_is_false. intros H'.
      apply (name_lt_irrefl a). eapply name_lt_trans; eauto.
    + apply not_true_is_false. apply name_lt_irrefl.
Qed.

Lemma name_le_lt_trans a b c : name_le a b -> name_lt b c -> name_lt a c.
Proof.
  rewrite name_le_iff. intros [H| ->] H'; auto. eapply name_lt_trans; eauto.
Qed.

Lemma name_le_trans a b c : name_le a b -> name_le b c -> name_le a c.
Proof.
  rewrite !name_le_iff. intros [H| ->] [H'| ->]; auto.
  left. eapply name_lt_trans; eauto.
Qed.

Lemma insert_In x l y : In y (Std.insert x l) <-> y = x \/ In y l.
Proof.
  induction l as [|z l IH]; cbn.
  - intuition.
  - destruct (String.ltb z x); cbn; rewrite ?IH; intuition.
Qed.

Lemma sort_In l y : In y (Std.sort l) <-> In y l.
Proof.
  induction l as [|x l IH]; cbn; [tauto|].
  rewrite insert_In, IH. intuition.
Qed.

Lemma insert_sorted x l :
  StronglySorted name_le l -> StronglySorted name_le (Std.insert x l).
Proof.
  induction 1 as [|z l Hs IH Hz]; cbn.
  - repeat constructor.
  - destruct (String.ltb z x) eqn:E.
    + constructor; auto. apply Forall_forall. intros y Hy.
      apply insert_In in Hy. destruct Hy as [->|Hy].
      * apply name_le_iff. now left.
      * rewrite Forall_forall in Hz. auto.
    + constructor; [constructor; auto|].
      constructor; [exact E|].
      apply Forall_forall. intros y Hy. rewrite Forall_forall in Hz.
      eapply name_le_trans; [exact E|auto].
Qed.

Lemma sort_sorted l : StronglySorted name_le (Std.sort l).
Proof.
  induction l as [|x l IH]; cbn; [constructor|]. now apply insert_sorted.
Qed.







(** ** The attempts of [computeApproach] *)

Lemma In_firstn {A : Type} (n : nat) (l : list A) (x : A) :
  In x (firstn n l) -> In x l.
Proof.
  revert l; induction n as [|n IH]; intros [|y l]; cbn; try tauto.
  intros [H|H]; auto.
Qed.







(** ** The reach time of the unplanned approaches *)















(** ** The time of the first waypoint *)













Lemma combined_point_time jn cur tin appr joint_dim pa point :
  combineTrajectories_point jn cur tin appr joint_dim pa = Ret point ->
  time_from_start point = time_from_start pa.
Proof.
  rewrite combineTrajectories_point_eq. intros H. inv_bind H.
  injection H as <-. reflexivity.
Qed.

Lemma mapM_Forall {A B : Type} (f : A -> outcome B) (P : A -> Prop)
      (Q : B -> Prop) (l : list A) (ys : list B) :
  (forall x y, P x -> f x = Ret y -> Q y) ->
  Forall P l -> mapM f l = Ret ys -> Forall Q ys.
Proof.
  intros Hf. revert ys; induction l as [|x l IH]; cbn; intros ys Hl H.
  - injection H as <-. constructor.
  - inv_bind H. inv_bind H. injection H as <-.
    inversion Hl; subst. constructor; eauto.
Qed.

Lemma Forall_removelast {A : Type} (P : A -> Prop) (l : list A) :
  Forall P l -> Forall P (removelast l).
Proof.
  induction 1 as [|x l Hx Hl IH]; cbn; [constructor|].
  destruct l; [constructor|]. constructor; auto.
Qed.










(** ** The groups that [computeApproach] attempts *)

Lemma computeApproach_groups_loop self jn cur goal count :
  forall first (maxg : JointNames) (maxv : list float) (ming : JointNames),
    (first + count = List.length jn)%nat ->
    List.length cur = List.length jn ->
    List.length goal = List.length jn ->
    Std.for_loop count first (computeApproach_joint self jn cur goal)
      (maxg, maxv, ming)
    = let rest := eligible self (skipn first (joint_states jn cur goal)) in
      Ret (maxg ++ map fst rest,
           maxv ++ map (fun s => snd (snd s)) rest,
           ming ++ map fst (moving self rest)).
Proof.
  induction count as [|count IH]; intros first maxg maxv ming Hn Hc Hg.
  - cbn [Std.for_loop]. rewrite skipn_all2.
    + cbn. now rewrite !app_nil_r.
    + unfold joint_states. rewrite !length_combine. lia.
  - cbn [Std.for_loop]. unfold computeApproach_joint at 1.
    destruct (at_lt jn first) as [name Hname]; [lia|].
    destruct (at_lt goal first) as [g Hgoal]; [lia|].
    destruct (at_lt cur first) as [c Hcur]; [lia|].
    rewrite Hname. cbn [bind].
    assert (Hs : skipn first (joint_states jn cur goal)
                 = (name, (c, g)) :: skipn (S first) (joint_states jn cur goal)).
    { apply skipn_nth_error. unfold joint_states.
      apply at_Ret in Hname, Hgoal, Hcur.
      apply nth_error_combine; [assumption|].
      now apply nth_error_combine. }
    rewrite Hs. cbn zeta. unfold eligible at 1 2 3. cbn [filter fst].
    destruct (isPlanningJoint self name).
    + rewrite Hgoal. cbn [bind]. rewrite Hcur. cbn [bind].
      cbn [map fst snd]. unfold moving at 1. cbn [filter fst snd].
      unfold Std.push_back.
      destruct (joint_tol_ self <? abs (c - g))%float; cbn [bind];
        rewrite IH by (auto; lia); cbn zeta; cbn [map fst snd];
        rewrite <- !app_assoc; reflexivity.
    + cbn [bind]. rewrite IH by (auto; lia). reflexivity.
Qed.

(** The groups that [computeApproach] derives from a request. *)
Lemma computeApproach_groups_spec self jn cur goal :
  List.length cur = List.length jn ->
  List.length goal = List.length jn ->
  computeApproach_groups self jn cur goal
  = let max_states := eligible self (joint_states jn cur goal) in
    Ret (map fst max_states,
         map (fun s => snd (snd s)) max_states,
         map fst (moving self max_states)).
Proof.
  intros Hc Hg. unfold computeApproach_groups.
  exact (computeApproach_groups_loop self jn cur goal (List.length jn) 0
           [] [] [] eq_refl Hc Hg).
Qed.











(** * Further properties *)

(** ** Loops *)

Lemma for_loop_invariant {S : Type} (P : S -> Prop)
      (body : nat -> S -> outcome S) (count : nat) :
  (forall i s s', P s -> body i s = Ret s' -> P s') ->
  forall first s s',
    P s -> Std.for_loop count first body s = Ret s' -> P s'.
Proof.
  intros Hbody. induction count as [|count IH]; intros first s s' Hs H;
    cbn in H.
  - now injection H as <-.
  - inv_bind H. eauto.
Qed.

(** ** [needsApproach] *)

Lemma needsApproach_from_spec self cur goal count :
  forall first,
    (first + count <= List.length cur)%nat ->
    (first + count <= List.length goal)%nat ->
    exists b,
      needsApproach_from self cur goal count first = Ret b
      /\ (b = true <->
          exists i c g,
            (first <= i < first + count)%nat
            /\ nth_error cur i = Some c /\ nth_error goal i = Some g
            /\ (joint_tol_ self <? abs (c - g))%float = true).
Proof.
  induction count as [|count IH]; intros first Hc Hg; cbn.
  - exists false. split; [reflexivity|]. split; [discriminate|].
    intros (i & _ & _ & Hi & _). lia.
  - destruct (at_lt cur first) as [c Hcur]; [lia|].
    destruct (at_lt goal first) as [g Hgoal]; [lia|].
    rewrite Hcur, Hgoal. cbn [bind]. apply at_Ret in Hcur, Hgoal.
    destruct (joint_tol_ self <? abs (c - g))%float eqn:Ht.
    + exists true. split; [reflexivity|]. split; [|reflexivity].
      intros _. exists first, c, g. repeat split; auto; lia.
    + destruct (IH (S first)) as (b & Hb & Hiff); [lia|lia|].
      exists b. split; [exact Hb|]. rewrite Hiff. split.
      * intros (i & c' & g' & Hi & H1 & H2 & H3).
        exists i, c', g'. repeat split; auto; lia.
      * intros (i & c' & g' & Hi & H1 & H2 & H3).
        destruct (Nat.eq_dec i first) as [->|Hne].
        -- assert (c' = c) by congruence. assert (g' = g) by congruence.
           subst. congruence.
        -- exists i, c', g'. repeat split; auto; lia.
Qed.

(** X1: [needsApproach] aborts on vectors of different sizes; on vectors of
    one size it returns, and it returns true exactly when the current
    position of some joint is further from its goal than the tolerance. *)
Theorem needsApproach_spec self cur goal :
  (List.length cur <> List.length goal ->
   needsApproach self cur goal = AssertionFailed)
  /\ (List.length cur = List.length goal ->
      exists b,
        needsApproach self cur goal = Passed (Ret b)
        /\ (b = true <->
            exists i c g,
              nth_error cur i = Some c /\ nth_error goal i = Some g
              /\ (joint_tol_ self <? abs (c - g))%float = true)).
Proof.
  unfold needsApproach. split; intros Hlen.
  - apply Nat.eqb_neq in Hlen. now rewrite Hlen.
  - rewrite Hlen, Nat.eqb_refl.
    destruct (needsApproach_from_spec self cur goal (List.length cur) 0)
      as (b & Hb & Hiff); [lia|lia|].
    exists b. rewrite <- Hlen, Hb. split; [reflexivity|].
    rewrite Hiff. split.
    + intros (i & c & g & _ & H). eauto.
    + intros (i & c & g & H1 & H2 & H3). exists i, c, g.
      repeat split; auto; try lia.
      cbn. apply nth_error_Some. congruence.
Qed.

(** ** Excluded joints *)

Lemma computeApproach_groups_allowed self jn cur goal maxg maxv ming :
  computeApproach_groups self jn cur goal = Ret (maxg, maxv, ming) ->
  Forall (fun joint => In joint jn /\ ~ In joint (no_plan_joints_ self)) maxg.
Proof.
  unfold computeApproach_groups. intros H.
  apply (for_loop_invariant
           (fun s : JointNames * list float * JointNames =>
              Forall (fun joint => In joint jn
                                   /\ ~ In joint (no_plan_joints_ self))
                     (fst (fst s)))) in H; [exact H| |constructor].
  clear. intros i [[maxg maxv] ming] s' Hs Hbody. cbn in Hs.
  unfold computeApproach_joint in Hbody.
  inv_bind Hbody. apply at_Ret in E.
  unfold isPlanningJoint in Hbody.
  destruct (Std.find (no_plan_joints_ self) x) eqn:Hfind.
  - now injection Hbody as <-.
  - inv_bind Hbody. inv_bind Hbody.
    assert (Forall (fun joint => In joint jn
                                 /\ ~ In joint (no_plan_joints_ self))
                   (Std.push_back maxg x)) as Hpush.
    { unfold Std.push_back. apply Forall_app. split; [exact Hs|].
      constructor; [|constructor]. split.
      - eapply nth_error_In; eauto.
      - now apply find_None_iff. }
    destruct (joint_tol_ self <? abs (x1 - x0))%float;
      injection Hbody as <-; exact Hpush.
Qed.

Lemma requested_goals_In calls g joint value ok :
  In (SetJointValueTarget g joint value ok) calls ->
  In (joint, value) (requested_goals calls).
Proof.
  intros H. unfold requested_goals. apply in_flat_map.
  eexists; split; [exact H|]. now left.
Qed.

Lemma planApproach_allowed moveit self jn maxg maxv g traj log ok traj' log' :
  Forall (fun joint => In joint jn /\ ~ In joint (no_plan_joints_ self)) maxg ->
  planApproach moveit maxg maxv g traj log = Ret (ok, traj', log') ->
  exists new, log' = log ++ new /\ Forall (goal_allowed self jn) new.
Proof.
  intros Hmax H.
  destruct (planApproach_calls _ _ _ _ _ _ _ _ _ H)
    as (calls & k & -> & _ & _ & Hgoals & _).
  eexists; split; [reflexivity|]. constructor; [exact I|].
  apply Forall_forall. intros [g'|g' joint value o|g' c t] Hin; cbn; auto.
  apply requested_goals_In in Hin. rewrite Hgoals in Hin.
  apply In_firstn in Hin. apply in_combine_l in Hin.
  rewrite Forall_forall in Hmax. exact (Hmax _ Hin).
Qed.

Lemma computeApproach_plan_allowed moveit self jn maxg maxv groups :
  Forall (fun joint => In joint jn /\ ~ In joint (no_plan_joints_ self)) maxg ->
  forall traj log ok traj' log',
    computeApproach_plan moveit groups maxg maxv traj log = Ret (ok, traj', log') ->
    exists new, log' = log ++ new /\ Forall (goal_allowed self jn) new.
Proof.
  intros Hmax. induction groups as [|g groups IH]; intros traj log ok traj' log' H;
    cbn in H.
  - injection H as <- <- <-. exists []. now rewrite app_nil_r.
  - inv_bind H. destruct x as [[ok1 traj1] log1].
    destruct (planApproach_allowed _ _ _ _ _ _ _ _ _ _ _ Hmax E)
      as (new1 & -> & Hnew1).
    destruct ok1.
    + injection H as <- <- <-. eauto.
    + destruct (IH _ _ _ _ _ H) as (new2 & -> & Hnew2).
      exists (new1 ++ new2). rewrite app_assoc. split; [reflexivity|].
      apply Forall_app. now split.
Qed.

(** X2: whatever [computeApproach] answers, the calls it makes are added at
    the end of the log, and each joint it gives a goal to with
    [setJointValueTarget] is a joint of the request that is not in the list
    of the joints excluded from planning. *)
Theorem computeApproach_excluded_joints moveit self jn cur goal log ok traj log'
        (Hrun : computeApproach moveit self jn cur goal log
                = Ret (ok, traj, log')) :
  exists new, log' = log ++ new /\ Forall (goal_allowed self jn) new.
Proof.
  unfold computeApproach in Hrun. inv_bind Hrun.
  destruct x as [[maxg maxv] ming].
  pose proof (computeApproach_groups_allowed _ _ _ _ _ _ _ E) as Hmax.
  destruct (Std.empty ming).
  { injection Hrun as <- <- <-. exists []. now rewrite app_nil_r. }
  destruct (Std.empty (getValidMoveGroups self ming maxg)).
  { injection Hrun as <- <- <-. exists []. now rewrite app_nil_r. }
  eapply computeApproach_plan_allowed; eauto.
Qed.

Lemma computeApproach_excluded_joints_witness :
  exists traj new,
    computeApproach permissive_moveit guarded_planner ["j1"; "jx"]
                    [0%float; 0%float] [1%float; 1%float] []
    = Ret (true, traj, new)
    /\ Forall (goal_allowed guarded_planner ["j1"; "jx"]) new
    /\ requested_goals new = [("j1", 1%float)].
Proof.
  destruct (computeApproach permissive_moveit guarded_planner ["j1"; "jx"]
              [0%float; 0%float] [1%float; 1%float] [])
    as [[[ok traj] log']|] eqn:Hrun; [|vm_compute in Hrun; discriminate Hrun].
  destruct (computeApproach_excluded_joints _ _ _ _ _ _ _ _ _ Hrun)
    as (new & Hlog & Hall).
  cbn [app] in Hlog. subst log'.
  exists traj, new. split; [|split; [exact Hall|]].
  - vm_compute in Hrun. now injection Hrun as <- <- <-.
  - vm_compute in Hrun. now injection Hrun as _ _ <-.
Defined.


(** ** The motion in the output *)

Lemma untimed_delay d p : untimed (delay d p) = untimed p.
Proof. reflexivity. Qed.

Lemma map_untimed_delay d traj : map untimed (map (delay d) traj) = map untimed traj.
Proof. rewrite map_map. apply map_ext. intros p. apply untimed_delay. Qed.

Lemma first_waypoint_untimed self cur traj out :
  prependApproach_first_waypoint self cur traj = Ret out ->
  map untimed out = map untimed traj.
Proof.
  unfold prependApproach_first_waypoint. intros H.
  inv_bind H. inv_bind H.
  assert (map untimed x0 = map untimed traj) as Hx0.
  { destruct (Duration.nanoseconds (time_from_start x) =? 0);
      [|now injection E0 as <-].
    inv_bind E0. inv_bind E0.
    destruct (eps_time <? x1)%float; injection E0 as <-;
      [apply map_untimed_delay|reflexivity]. }
  rewrite <- Hx0. clear Hx0 E0 E.
  inv_bind H.
  destruct (Duration.nanoseconds (time_from_start x1) =? 0);
    [|now injection H as <-].
  inv_bind H.
  destruct x0 as [|p rest]; [discriminate E|].
  cbn in E. injection E as ->. cbn in H. injection H as <-. reflexivity.
Qed.

Lemma skip_untimed self cur tin out :
  prependApproach_skip self cur tin = Ret out ->
  map untimed out = map untimed tin.
Proof.
  unfold prependApproach_skip. intros H. inv_bind H.
  destruct (Duration.nanoseconds (time_from_start x) =? 0);
    [|now injection H as <-].
  inv_bind H. inv_bind H. injection H as <-. apply map_untimed_delay.
Qed.

Lemma skip_same_motion moveit self jn cur tin traj_out log out log' :
  prependApproach moveit self jn cur true tin traj_out log
  = Ret (true, out, log') ->
  map untimed out = map untimed tin.
Proof.
  intros Hrun. unfold prependApproach in Hrun.
  destruct (Std.empty tin); [now injection Hrun as <- _|].
  inv_bind Hrun.
  destruct (negb _); [discriminate Hrun|].
  destruct (negb _); [discriminate Hrun|].
  cbn [negb andb] in Hrun. inv_bind Hrun. destruct x0 as [branch log1].
  inv_bind E0. injection E0 as <- <-.
  inv_bind Hrun. injection Hrun as <- _.
  repeat match goal with
         | H : prependApproach_first_waypoint _ _ _ = Ret _ |- _ =>
             apply first_waypoint_untimed in H
         | H : prependApproach_skip _ _ _ = Ret _ |- _ =>
             apply skip_untimed in H
         end.
  congruence.
Qed.

(** X3: when the approach is not to be planned ([skip_planning]), a call
    of [prependApproach] that succeeds makes no call on a move group and
    returns the waypoints of the input, one for one, with the same
    positions, velocities, accelerations and efforts: only their times
    change. The trajectory that [traj_out] held is overwritten. *)
Theorem prependApproach_skip_keeps_motion moveit self jn cur tin traj_out log
        ok out log'
        (Hrun : prependApproach moveit self jn cur true tin traj_out log
                = Ret (ok, out, log')) :
  log' = log
  /\ (ok = true -> map untimed out = map untimed tin)
  /\ (ok = false -> out = traj_out).
Proof.
  split; [|split].
  - unfold prependApproach in Hrun.
    destruct (Std.empty tin); [now injection Hrun as _ _ <-|].
    inv_bind Hrun.
    destruct (negb _); [now injection Hrun as _ _ <-|].
    destruct (negb _); [now injection Hrun as _ _ <-|].
    cbn [negb andb] in Hrun. inv_bind Hrun. destruct x0 as [branch log1].
    inv_bind E0. injection E0 as <- <-.
    inv_bind Hrun. now injection Hrun as _ _ <-.
  - intros ->. eapply skip_same_motion; eauto.
  - intros ->. eapply prependApproach_false; eauto.
Qed.

Lemma prependApproach_skip_keeps_motion_witness :
  exists out,
    prependApproach example_moveit example_planner example_joints example_current
                    true example_motion [waypoint [9%float; 9%float] 7] []
    = Ret (true, out, [])
    /\ map untimed out = map untimed example_motion.
Proof.
  destruct (prependApproach example_moveit example_planner example_joints
              example_current true example_motion
              [waypoint [9%float; 9%float] 7] [])
    as [[[ok out] log']|] eqn:Hrun; [|vm_compute in Hrun; discriminate Hrun].
  destruct (prependApproach_skip_keeps_motion _ _ _ _ _ _ _ _ _ _ Hrun)
    as (-> & Hsame & _).
  assert (ok = true) as ->.
  { vm_compute in Hrun. now injection Hrun as <- _. }
  exists out. split; [reflexivity|]. now apply Hsame.
Defined.

Lemma combineTrajectories_suffix jn cur tin appr traj_out out :
  (1 < List.length tin)%nat ->
  combineTrajectories jn cur tin appr traj_out = Ret out ->
  exists before last_out,
    out = before ++ map (delay (time_from_start last_out)) tin.
Proof.
  intros Hlen H. rewrite combineTrajectories_eq in H.
  inv_bind H. inv_bind H.
  destruct (1 =? List.length tin)%nat eqn:Hone;
    [apply Nat.eqb_eq in Hone; lia|].
  inv_bind H. inv_bind H. injection H as <-. eauto.
Qed.

(** X4: a call of [prependApproach] that succeeds on a motion of two
    waypoints or more keeps the motion: the last waypoints of the output
    are the waypoints of the input, one for one, with the same positions,
    velocities, accelerations and efforts, whatever approach comes before
    them. *)
Theorem prependApproach_keeps_motion moveit self jn cur skip tin traj_out log
        out log'
        (Hlen : (1 < List.length tin)%nat)
        (Hrun : prependApproach moveit self jn cur skip tin traj_out log
                = Ret (true, out, log')) :
  exists before,
    map untimed out = before ++ map untimed tin
    /\ (skip = true -> before = []).
Proof.
  destruct skip.
  - exists []. split; [|reflexivity].
    eapply skip_same_motion; eauto.
  - unfold prependApproach in Hrun.
    destruct (Std.empty tin) eqn:Hemp.
    { destruct tin; [cbn in Hlen; lia|discriminate Hemp]. }
    inv_bind Hrun.
    destruct (negb _); [discriminate Hrun|].
    destruct (negb _); [discriminate Hrun|].
    destruct (negb false && planning_disabled_ self); [discriminate Hrun|].
    inv_bind Hrun. destruct x0 as [[branch|] log1]; [|discriminate Hrun].
    inv_bind Hrun. injection Hrun as <- <-.
    match goal with
    | H : prependApproach_first_waypoint _ _ _ = Ret _ |- _ =>
        apply first_waypoint_untimed in H; rewrite H
    end.
    match goal with
    | H : prependApproach_plan _ _ _ _ _ _ _ = Ret _ |- _ =>
        rename H into Hplan
    end.
    unfold prependApproach_plan in Hplan.
    inv_bind Hplan. inv_bind Hplan.
    match goal with
    | H : computeApproach _ _ _ _ _ _ = Ret ?r |- _ =>
        destruct r as [[aok appr] log2]
    end.
    destruct (negb aok); [discriminate Hplan|].
    destruct (Std.empty (JointTrajectory.points appr)).
    + injection Hplan as <- <-. exists []. split; [reflexivity|discriminate].
    + inv_bind Hplan. injection Hplan as <- <-.
      match goal with
      | H : combineTrajectories _ _ _ _ _ = Ret _ |- _ =>
          destruct (combineTrajectories_suffix _ _ _ _ _ _ Hlen H)
            as (before & last_out & ->)
      end.
      exists (map untimed before). split; [|discriminate].
      now rewrite map_app, map_untimed_delay.
Qed.

Lemma prependApproach_keeps_motion_witness :
  exists out log' before,
    prependApproach example_moveit example_planner ["j1"; "j2"; "j3"]
                    [0%float; 0%float; 0%float] false
                    [waypoint [0%float; 1%float; 0%float] 0;
                     waypoint [0%float; 2%float; 0%float] 1000000000] [] []
    = Ret (true, out, log')
    /\ List.length out = 4%nat
    /\ map untimed out
       = before ++ map untimed [waypoint [0%float; 1%float; 0%float] 0;
                                waypoint [0%float; 2%float; 0%float] 1000000000].
Proof.
  destruct (prependApproach example_moveit example_planner ["j1"; "j2"; "j3"]
              [0%float; 0%float; 0%float] false
              [waypoint [0%float; 1%float; 0%float] 0;
               waypoint [0%float; 2%float; 0%float] 1000000000] [] [])
    as [[[ok out] log']|] eqn:Hrun; [|vm_compute in Hrun; discriminate Hrun].
  assert (ok = true /\ List.length out = 4%nat) as [-> Hfour].
  { vm_compute in Hrun. injection Hrun as <- <- _. split; reflexivity. }
  assert (1 < List.length [waypoint [0%float; 1%float; 0%float] 0;
                           waypoint [0%float; 2%float; 0%float] 1000000000])%nat
    as Hlen by (cbn; lia).
  destruct (prependApproach_keeps_motion _ _ _ _ _ _ _ _ _ _ Hlen Hrun)
    as (before & Hsame & _).
  exists out, log', before. auto.
Defined.

(** ** A robot at its goal *)

Lemma nth_error_combine_inv {A B : Type} (l1 : list A) (l2 : list B) n a b :
  nth_error (combine l1 l2) n = Some (a, b) ->
  nth_error l1 n = Some a /\ nth_error l2 n = Some b.
Proof.
  revert l2 n. induction l1 as [|x l1 IH]; intros [|y l2] [|n] H;
    try discriminate H; cbn in *.
  - now injection H as -> ->.
  - auto.
Qed.

Lemma filter_nil {A : Type} (f : A -> bool) (l : list A) :
  (forall x, In x l -> f x = false) -> filter f l = [].
Proof.
  induction l as [|x l IH]; intros H; [reflexivity|]. cbn.
  rewrite (H x (or_introl eq_refl)). apply IH. intros y Hy. apply H. now right.
Qed.

Lemma needsApproach_false self jn cur goal :
  needsApproach self cur goal = Passed (Ret false) ->
  moving self (eligible self (joint_states jn cur goal)) = [].
Proof.
  intros Hneeds. unfold needsApproach in Hneeds.
  destruct (List.length cur =? List.length goal)%nat eqn:Hlen;
    [|discriminate Hneeds].
  apply Nat.eqb_eq in Hlen. injection Hneeds as Hneeds.
  destruct (needsApproach_from_spec self cur goal (List.length cur) 0)
    as (b & Hb & Hiff); [lia|lia|].
  rewrite Hb in Hneeds. injection Hneeds as ->.
  apply filter_nil. intros [name [c g]] Hin. cbn [fst snd].
  apply filter_In in Hin. destruct Hin as [Hin _].
  unfold joint_states in Hin. apply in_combine_r in Hin.
  apply In_nth_error in Hin. destruct Hin as [i Hi].
  apply nth_error_combine_inv in Hi. destruct Hi as [Hc Hg].
  destruct (joint_tol_ self <? abs (c - g))%float eqn:Ht; [|reflexivity].
  assert (false = true) as Habs.
  { apply Hiff. exists i, c, g. repeat split; auto; try lia.
    cbn. apply nth_error_Some. congruence. }
  discriminate Habs.
Qed.

(** X5: when [needsApproach] finds every joint within the tolerance of the
    first waypoint, [computeApproach] succeeds with an empty approach and
    makes no call on a move group, and [prependApproach] with planning
    returns the input trajectory, after the adjustment of the time of its
    first waypoint. *)
Theorem prependApproach_at_goal moveit self jn cur tin traj_out log first_in
        (Hhd : hd_error tin = Some first_in)
        (Hjn : List.length (positions first_in) = List.length jn)
        (Hcur : List.length (positions first_in) = List.length cur)
        (Hneeds : needsApproach self cur (positions first_in)
                  = Passed (Ret false)) :
  computeApproach moveit self jn cur (positions first_in) log
  = Ret (true, JointTrajectory.mk [] [], log)
  /\ (planning_disabled_ self = false ->
      prependApproach moveit self jn cur false tin traj_out log
      = (out <- prependApproach_first_waypoint self cur tin ;;
         Ret (true, out, log))).
Proof.
  assert (computeApproach moveit self jn cur (positions first_in) log
          = Ret (true, JointTrajectory.mk [] [], log)) as Hcompute.
  { unfold computeApproach.
    rewrite computeApproach_groups_spec by congruence.
    cbv zeta. cbn [bind].
    rewrite (needsApproach_false self jn _ _ Hneeds). reflexivity. }
  split; [exact Hcompute|]. intros Hen.
  unfold prependApproach.
  destruct (front_hd_error _ _ Hhd) as [Hfront Hemp].
  rewrite Hemp, Hfront. cbn [bind].
  rewrite Hjn, <- Hcur, Hjn, Nat.eqb_refl, Hen. cbn [negb andb].
  unfold prependApproach_plan. rewrite Hfront. cbn [bind].
  rewrite Hcompute. cbn [bind negb Std.empty JointTrajectory.points].
  reflexivity.
Qed.

Lemma prependApproach_at_goal_witness :
  needsApproach example_planner [0%float; 1%float; 0%float]
                [0%float; 1%float; 0%float] = Passed (Ret false)
  /\ prependApproach example_moveit example_planner ["j1"; "j2"; "j3"]
                     [0%float; 1%float; 0%float] false
                     [waypoint [0%float; 1%float; 0%float] 5] [] []
     = Ret (true, [waypoint [0%float; 1%float; 0%float] 5], []).
Proof.
  split; [reflexivity|].
  destruct (prependApproach_at_goal example_moveit example_planner
              ["j1"; "j2"; "j3"] [0%float; 1%float; 0%float]
              [waypoint [0%float; 1%float; 0%float] 5] [] []
              (waypoint [0%float; 1%float; 0%float] 5)
              eq_refl eq_refl eq_refl eq_refl) as [_ H].
  rewrite (H eq_refl). reflexivity.
Defined.

(** ** The answer of [computeApproach] *)

Lemma planApproach_success moveit jn jv g traj log traj' log' :
  planApproach moveit jn jv g traj log = Ret (true, traj', log') ->
  JointTrajectory.points traj' <> []
  /\ exists before, log' = before ++ [Plan g SUCCESS traj'].
Proof.
  unfold planApproach. intros H. inv_bind H. destruct x as [goal_ok log1].
  destruct (negb goal_ok); [discriminate H|].
  destruct (plan moveit log1 g) as [code ptraj].
  destruct (code =? SUCCESS) eqn:Hcode; [|discriminate H].
  apply Z.eqb_eq in Hcode. subst code. cbn [negb] in H.
  destruct (Std.empty (JointTrajectory.points ptraj)) eqn:Hemp;
    [discriminate H|].
  injection H as <- <-. split; [now apply empty_false_iff|eauto].
Qed.

Lemma computeApproach_plan_result moveit maxg maxv groups :
  forall traj log ok traj' log',
    computeApproach_plan moveit groups maxg maxv traj log = Ret (ok, traj', log') ->
    (ok = false -> traj' = traj)
    /\ (ok = true ->
        JointTrajectory.points traj' <> []
        /\ exists before g,
            In g groups /\ log' = before ++ [Plan g SUCCESS traj']).
Proof.
  induction groups as [|g groups IH]; intros traj log ok traj' log' H; cbn in H.
  - injection H as <- <- <-. split; [reflexivity|discriminate].
  - inv_bind H. destruct x as [[ok1 traj1] log1]. destruct ok1.
    + injection H as <- <- <-. split; [discriminate|]. intros _.
      destruct (planApproach_success _ _ _ _ _ _ _ _ E) as [Hne [before ->]].
      split; [exact Hne|]. exists before, g. split; [now left|reflexivity].
    + destruct (planApproach_calls _ _ _ _ _ _ _ _ _ E)
        as (_ & _ & _ & _ & _ & _ & _ & _ & Hsame).
      rewrite (Hsame eq_refl) in H.
      destruct (IH _ _ _ _ _ H) as [Hf Ht]. split; [exact Hf|].
      intros Hok. destruct (Ht Hok) as (Hne & before & g' & Hin & ->).
      split; [exact Hne|]. exists before, g'. split; [now right|reflexivity].
Qed.

(** X6: the answer of [computeApproach]. When it fails the approach is
    empty. When it succeeds, either it made no call and the approach is
    empty (no joint has to move), or the approach is the trajectory that the
    last call of the log, a successful [plan] on a group of the registry,
    returned, and it has a waypoint. *)
Theorem computeApproach_result moveit self jn cur goal log ok traj log'
        (Hrun : computeApproach moveit self jn cur goal log
                = Ret (ok, traj, log')) :
  (ok = false -> traj = JointTrajectory.mk [] [])
  /\ (ok = true ->
      (traj = JointTrajectory.mk [] [] /\ log' = log)
      \/ (JointTrajectory.points traj <> []
          /\ exists before g,
              In g (map move_group (planning_data_ self))
              /\ log' = before ++ [Plan g SUCCESS traj])).
Proof.
  unfold computeApproach in Hrun. inv_bind Hrun.
  destruct x as [[maxg maxv] ming].
  destruct (Std.empty ming).
  { injection Hrun as <- <- <-. split; [reflexivity|]. intros _. now left. }
  destruct (Std.empty (getValidMoveGroups self ming maxg)).
  { injection Hrun as <- <- <-. split; [reflexivity|discriminate]. }
  destruct (computeApproach_plan_result _ _ _ _ _ _ _ _ _ Hrun) as [Hf Ht].
  split; [exact Hf|]. intros Hok. right.
  destruct (Ht Hok) as (Hne & before & g & Hin & ->).
  split; [exact Hne|]. exists before, g. split; [|reflexivity].
  unfold getValidMoveGroups in Hin. apply in_map_iff in Hin.
  destruct Hin as (d & <- & Hd). apply filter_In in Hd.
  apply in_map. tauto.
Qed.

Lemma computeApproach_result_witness :
  exists before g log',
    computeApproach example_moveit example_planner ["j1"; "j2"; "j3"]
                    [0%float; 0%float; 0%float] [0%float; 1%float; 0%float] []
    = Ret (true, example_approach, log')
    /\ log' = before ++ [Plan g SUCCESS example_approach]
    /\ getName g = "g123".
Proof.
  destruct (computeApproach example_moveit example_planner ["j1"; "j2"; "j3"]
              [0%float; 0%float; 0%float] [0%float; 1%float; 0%float] [])
    as [[[ok traj] log']|] eqn:Hrun; [|vm_compute in Hrun; discriminate Hrun].
  destruct (computeApproach_result _ _ _ _ _ _ _ _ _ Hrun) as [_ Ht].
  assert (ok = true /\ traj = example_approach) as [-> ->].
  { vm_compute in Hrun. injection Hrun as <- <- _. split; reflexivity. }
  destruct (Ht eq_refl) as [[Habs _]|(_ & before & g & Hin & Hlog)];
    [discriminate Habs|].
  exists before, g, log'. split; [reflexivity|]. split; [exact Hlog|].
  rewrite Hlog in Hrun. vm_compute in Hrun.
  injection Hrun as Hrun. apply (f_equal (@rev Event)) in Hrun.
  rewrite rev_app_distr in Hrun. cbn in Hrun. injection Hrun as <- _.
  reflexivity.
Defined.


(** ** The waypoints of [combineTrajectories] *)

Lemma combined_point_fits jn cur tin appr joint_dim pa point :
  combineTrajectories_point jn cur tin appr joint_dim pa = Ret point ->
  approach_point_fits joint_dim point /\ effort point = [].
Proof.
  rewrite combineTrajectories_point_eq. intros H. inv_bind H.
  injection H as <-. apply mapM_length in E. rewrite length_seq in E.
  unfold approach_point_fits, combined_point. simpl_point.
  split; [|reflexivity]. split; [|split].
  - now rewrite length_map.
  - destruct (Std.empty (velocities pa)); [now left|right].
    now rewrite length_map.
  - destruct (Std.empty (accelerations pa)); [now left|right].
    now rewrite length_map.
Qed.

Lemma pop_back_Ret {A : Type} (l kept : list A) :
  Std.pop_back l = Ret kept -> kept = removelast l.
Proof. destruct l; [discriminate|]. intros H. now injection H as <-. Qed.

Lemma delay_fits n d p : approach_point_fits n p -> approach_point_fits n (delay d p).
Proof. intros H. exact H. Qed.

(** X7: [combineTrajectories] keeps the trajectory well formed. With [n]
    the number of positions of the first input waypoint, every waypoint it
    builds has [n] positions, and [n] velocities and [n] accelerations or
    none; so when the waypoints of the input, and those already in the
    output, are of this shape, all the waypoints of the output are. *)
Theorem combineTrajectories_dimensions jn cur tin appr traj_out out first_in
        (Hhd : hd_error tin = Some first_in)
        (Hout : combineTrajectories jn cur tin appr traj_out = Ret out)
        (Htin : Forall (approach_point_fits (List.length (positions first_in)))
                       tin)
        (Hprev : Forall (approach_point_fits (List.length (positions first_in)))
                        traj_out) :
  Forall (approach_point_fits (List.length (positions first_in))) out.
Proof.
  rewrite combineTrajectories_eq in Hout.
  destruct (front_hd_error _ _ Hhd) as [Hfront _].
  rewrite Hfront in Hout. cbn [bind] in Hout. inv_bind Hout.
  assert (Forall (approach_point_fits (List.length (positions first_in)))
                 (traj_out ++ x)) as Hall.
  { apply Forall_app. split; [exact Hprev|].
    eapply (mapM_Forall _ (fun _ => True)); [|apply Forall_forall; auto|exact E].
    intros pa point _ Hpoint.
    now destruct (combined_point_fits _ _ _ _ _ _ _ Hpoint). }
  destruct (1 =? List.length tin)%nat; [now injection Hout as <-|].
  inv_bind Hout. inv_bind Hout. injection Hout as <-.
  apply Forall_app. split.
  - match goal with
    | H : Std.pop_back _ = Ret _ |- _ => apply pop_back_Ret in H; subst
    end.
    now apply Forall_removelast.
  - apply Forall_forall. intros p Hp. apply in_map_iff in Hp.
    destruct Hp as (q & <- & Hq). apply delay_fits.
    rewrite Forall_forall in Htin. auto.
Qed.

Lemma combineTrajectories_dimensions_witness :
  exists out,
    combineTrajectories example_joints example_current example_motion
                        example_approach [] = Ret out
    /\ Forall (approach_point_fits 2) out.
Proof.
  destruct (combineTrajectories example_joints example_current example_motion
              example_approach []) as [out|] eqn:Hout;
    [|vm_compute in Hout; discriminate Hout].
  exists out. split; [reflexivity|].
  apply (combineTrajectories_dimensions
           example_joints example_current example_motion example_approach
           [] out (waypoint [1%float; 2%float] 0) eq_refl Hout).
  - repeat (apply Forall_cons;
            [split; [reflexivity|split; left; reflexivity]|]).
    apply Forall_nil.
  - apply Forall_nil.
Defined.

Lemma combined_joint_planned jn cur tin appr pa i val name id :
  combined_joint jn cur tin appr pa i = Ret val ->
  nth_error jn i = Some name ->
  Std.find (JointTrajectory.joint_names appr) name = Some id ->
  nth_error (positions pa) id = Some (fst3 val)
  /\ (velocities pa <> [] -> nth_error (velocities pa) id = Some (snd3 val))
  /\ (accelerations pa <> [] ->
      nth_error (accelerations pa) id = Some (thd3 val)).
Proof.
  intros Hj Hname Hfind. unfold combined_joint in Hj.
  apply at_Ret in Hname. rewrite Hname in Hj. cbn [bind] in Hj.
  rewrite Hfind in Hj.
  inv_bind Hj. inv_bind Hj. inv_bind Hj. injection Hj as <-.
  cbn [fst3 snd3 thd3 fst snd].
  split; [now apply at_Ret|]. split; intros Hne.
  - apply empty_false_iff in Hne. rewrite Hne in E0. now apply at_Ret.
  - apply empty_false_iff in Hne. rewrite Hne in E1. now apply at_Ret.
Qed.

(** X8: the joints that the approach plans. For a waypoint [pa] of the
    approach and a joint of the motion that the approach names, at the
    index [id] of its first occurrence there, the combined waypoint has for
    this joint the position of index [id] of [pa], and its velocity and
    acceleration when [pa] has any; it has the time of [pa] and no
    effort. *)
Theorem combineTrajectories_planned jn cur tin appr traj_out out
        first_in k pa i name id
        (Hout : combineTrajectories jn cur tin appr traj_out = Ret out)
        (Hhd : hd_error tin = Some first_in)
        (Hk : nth_error (JointTrajectory.points appr) k = Some pa)
        (Hname : nth_error jn i = Some name)
        (Hi : (i < List.length (positions first_in))%nat)
        (Hfind : Std.find (JointTrajectory.joint_names appr) name = Some id) :
  exists point p,
    combineTrajectories_point jn cur tin appr
      (List.length (positions first_in)) pa = Ret point
    /\ (List.length tin = 1%nat
        \/ (S k < List.length (JointTrajectory.points appr))%nat ->
        nth_error out (List.length traj_out + k) = Some point)
    /\ nth_error (positions pa) id = Some p
    /\ nth_error (positions point) i = Some p
    /\ (velocities pa <> [] ->
        exists v, nth_error (velocities pa) id = Some v
                  /\ nth_error (velocities point) i = Some v)
    /\ (velocities pa = [] -> velocities point = [])
    /\ (accelerations pa <> [] ->
        exists a, nth_error (accelerations pa) id = Some a
                  /\ nth_error (accelerations point) i = Some a)
    /\ (accelerations pa = [] -> accelerations point = [])
    /\ time_from_start point = time_from_start pa
    /\ effort point = [].
Proof.
  destruct (combineTrajectories_built _ _ _ _ _ _ _ Hhd Hout) as (merged & Hm & Hat).
  destruct (mapM_nth_error _ _ _ Hm k pa Hk) as (point & Hpoint & Hbuilt).
  destruct (combined_point_entries _ _ _ _ _ _ _ i Hbuilt Hi)
    as (val & Hval & Hp & Hv1 & Hv2 & Ha1 & Ha2).
  destruct (combined_joint_planned _ _ _ _ _ _ _ _ _ Hval Hname Hfind)
    as (Hpp & Hpv & Hpa).
  exists point, (fst3 val). split; [assumption|]. split.
  { intros Hkept. apply Hat; [assumption|].
    rewrite (mapM_length _ _ _ Hm). assumption. }
  split; [exact Hpp|]. split; [exact Hp|].
  split; [intros Hne; exists (snd3 val); auto|].
  split; [exact Hv2|].
  split; [intros Hne; exists (thd3 val); auto|].
  split; [exact Ha2|].
  split; [eapply combined_point_time; eauto|].
  now destruct (combined_point_fits _ _ _ _ _ _ _ Hbuilt).
Qed.

Lemma combineTrajectories_planned_witness :
  exists out point,
    combineTrajectories example_joints example_current example_motion
                        example_approach [] = Ret out
    /\ nth_error out 1 = Some point
    /\ nth_error (positions point) 0 = Some 0.5%float
    /\ nth_error (velocities point) 0 = Some 1%float
    /\ time_from_start point = 2000000000.
Proof.
  destruct (combineTrajectories example_joints example_current example_motion
              example_approach []) as [out|] eqn:Hout;
    [|vm_compute in Hout; discriminate Hout].
  destruct (combineTrajectories_planned
              example_joints example_current example_motion example_approach
              [] out (waypoint [1%float; 2%float] 0) 1%nat
              (waypoint_v [0.5%float] [1%float] 2000000000) 0%nat "j1" 0%nat
              Hout eq_refl eq_refl eq_refl (Nat.lt_0_succ _) eq_refl)
    as (point & p & _ & Hat & Hpa & Hp & Hv & _ & _ & _ & Ht & _).
  exists out, point. split; [reflexivity|].
  split; [apply Hat; right; cbn; lia|].
  cbn in Hpa. injection Hpa as <-. split; [exact Hp|].
  destruct Hv as (v & Hv1 & Hv2); [discriminate|].
  cbn in Hv1. injection Hv1 as <-. split; [exact Hv2|exact Ht].
Defined.

(** ** The times of the output *)











(** ** The constructor *)

Lemma insert_Permutation x l : Permutation (Std.insert x l) (x :: l).
Proof.
  induction l as [|y l IH]; cbn; [reflexivity|].
  destruct (String.ltb y x); [|reflexivity].
  rewrite IH. apply perm_swap.
Qed.

Lemma sort_Permutation l : Permutation (Std.sort l) l.
Proof.
  induction l as [|x l IH]; cbn; [reflexivity|].
  rewrite insert_Permutation. now constructor.
Qed.

Lemma registry_loop (new_move_group : string -> outcome MoveGroupInterface)
      (names : list string) :
  forall acc,
    Std.for_each names
      (fun planning_group planning_data =>
         g <- new_move_group planning_group ;;
         Ret (Std.push_back planning_data (PlanningData_new g)))
      acc
    = (groups <- mapM new_move_group names ;;
       Ret (acc ++ map PlanningData_new groups)).
Proof.
  induction names as [|n names IH]; intros acc; cbn.
  - now rewrite app_nil_r.
  - destruct (new_move_group n) as [g|]; [cbn [bind]|reflexivity].
    rewrite IH. destruct (mapM new_move_group names); [cbn [bind]|reflexivity].
    unfold Std.push_back. now rewrite <- app_assoc.
Qed.

(** X10: the registry of a planner that the constructor returns. Its
    entries are built from the move groups of the names of the parameter
    [planning_groups], one for one and in the order of the parameter, and
    each entry holds the active joints of its group, sorted. A planner with
    planning disabled has no entry, and the constructor then reads neither
    the groups nor the tolerance nor the excluded joints; with planning
    enabled and no parameter [planning_groups] the constructor throws. *)
Theorem ApproachPlanner_new_registry node new_move_group :
  (forall self,
      ApproachPlanner_new node new_move_group = Ret self ->
      exists groups,
        planning_data_ self = map PlanningData_new groups
        /\ Forall (fun d => StronglySorted name_le (sorted_joint_names d)
                            /\ Permutation (sorted_joint_names d)
                                           (getActiveJoints (move_group d)))
                  (planning_data_ self)
        /\ (planning_disabled_ self = true ->
            groups = [] /\ joint_tol_ self = milli /\ no_plan_joints_ self = [])
        /\ (planning_disabled_ self = false ->
            exists names,
              planning_groups node = Some names
              /\ mapM new_move_group names = Ret groups
              /\ joint_tol_ self = value_or (joint_tolerance node) milli
              /\ no_plan_joints_ self
                 = value_or (exclude_from_planning_joints node) []))
  /\ (value_or (disable_motion_planning node) false = false ->
      planning_groups node = None ->
      ApproachPlanner_new node new_move_group = Fault RuntimeError)
  /\ (value_or (disable_motion_planning node) false = true ->
      exists self, ApproachPlanner_new node new_move_group = Ret self).
Proof.
  unfold ApproachPlanner_new. split; [|split].
  - intros self H.
    destruct (value_or (disable_motion_planning node) false) eqn:Hdis.
    + injection H as <-. exists []. cbn.
      repeat split; auto; discriminate.
    + destruct (planning_groups node) as [names|]; [|discriminate H].
      rewrite registry_loop in H. inv_bind H. inv_bind E.
      injection E as <-. injection H as <-.
      cbn [planning_data_ planning_disabled_ joint_tol_ no_plan_joints_ app].
      match goal with
      | H : mapM new_move_group names = Ret ?g |- _ =>
          rename g into groups; rename H into Hgroups
      end.
      exists groups. split; [reflexivity|]. split; [|split].
      * apply Forall_forall. intros d Hd. apply in_map_iff in Hd.
        destruct Hd as (g & <- & _). cbn. split.
        -- apply sort_sorted.
        -- apply sort_Permutation.
      * discriminate.
      * intros _. exists names. auto.
  - intros -> ->. reflexivity.
  - intros ->. eauto.
Qed.

(** X11: a planner constructed with the parameter
    [disable_motion_planning] set rejects every request to plan an approach
    for a motion that has a waypoint: [prependApproach] returns false, makes
    no call on a move group and leaves the output as it was. *)
Theorem disabled_planner_rejects node new_move_group self moveit jn cur tin
        traj_out log
        (Hnew : ApproachPlanner_new node new_move_group = Ret self)
        (Hdis : disable_motion_planning node = Some true)
        (Hin : tin <> []) :
  prependApproach moveit self jn cur false tin traj_out log
  = Ret (false, traj_out, log).
Proof.
  unfold ApproachPlanner_new in Hnew. rewrite Hdis in Hnew. cbn in Hnew.
  injection Hnew as <-. unfold prependApproach.
  destruct tin as [|first_in tin]; [contradiction|].
  cbn [Std.empty Std.front Std.at_ nth_error bind planning_disabled_].
  destruct (negb _); [reflexivity|]. destruct (negb _); reflexivity.
Qed.

Lemma disabled_planner_rejects_witness :
  exists self,
    ApproachPlanner_new (mkParameters None None None None None (Some true))
                        (fun _ => Fault RuntimeError) = Ret self
    /\ prependApproach failing_moveit self ["j1"] [0%float] false
                       [waypoint [1%float] 0] [waypoint [9%float] 7] []
       = Ret (false, [waypoint [9%float] 7], []).
Proof.
  eexists. split; [reflexivity|].
  apply (disabled_planner_rejects
           (mkParameters None None None None None (Some true))
           (fun _ => Fault RuntimeError)); [reflexivity|reflexivity|discriminate].
Defined.

(** ** The listings *)

Lemma append_assoc (a b c : string) :
  ((a ++ b) ++ c = a ++ (b ++ c))%string.
Proof. induction a as [|ch a IH]; cbn; [reflexivity|now rewrite IH]. Qed.

Lemma append_nil_r (a : string) : (a ++ "")%string = a.
Proof. induction a as [|ch a IH]; cbn; [reflexivity|now rewrite IH]. Qed.

Lemma length_append (a b : string) :
  String.length (a ++ b)%string = (String.length a + String.length b)%nat.
Proof. induction a as [|ch a IH]; cbn; [reflexivity|now rewrite IH]. Qed.

Lemma substring_append (a b : string) :
  substring 0 (String.length a) (a ++ b)%string = a.
Proof.
  induction a as [|ch a IH]; cbn; [now destruct b|now rewrite IH].
Qed.

Lemma listing_fold {A : Type} (name : A -> string) (delim : string)
      (l : list A) :
  forall acc,
    fold_left (fun ret x => (ret ++ (name x ++ delim))%string) l acc
    = (acc ++ String.concat "" (map (fun x => (name x ++ delim)%string) l))%string.
Proof.
  induction l as [|x l IH]; intros acc; cbn [fold_left map].
  - cbn. now rewrite append_nil_r.
  - rewrite IH. rewrite append_assoc. f_equal.
    destruct l as [|y l]; cbn; [now rewrite append_nil_r|reflexivity].
Qed.

Lemma listing_concat (delim : string) (l : list string) :
  l <> [] ->
  String.concat "" (map (fun x => (x ++ delim)%string) l)
  = (String.concat delim l ++ delim)%string.
Proof.
  induction l as [|x l IH]; intros Hne; [contradiction|].
  destruct l as [|y l]; [reflexivity|].
  change (String.concat "" (map (fun x => (x ++ delim)%string) (x :: y :: l)))
    with ((x ++ delim) ++ ""
          ++ String.concat "" (map (fun x => x ++ delim) (y :: l)))%string.
  rewrite IH by discriminate.
  change (String.concat delim (x :: y :: l))
    with (x ++ delim ++ String.concat delim (y :: l))%string.
  cbn [String.append]. now rewrite !append_assoc.
Qed.

Lemma listing_spec (l : list string) :
  (let ret := String.concat "" (map (fun x => (x ++ ", ")%string) l) in
   if negb (String.eqb ret "") then erase_last_two ret else Ret ret)
  = Ret (String.concat ", " l).
Proof.
  cbv zeta. destruct l as [|x l]; [reflexivity|].
  rewrite listing_concat by discriminate.
  set (s := String.concat ", " (x :: l)).
  assert (String.eqb (s ++ ", ")%string "" = false) as ->.
  { apply String.eqb_neq. intros H. apply (f_equal String.length) in H.
    rewrite length_append in H. cbn in H. lia. }
  cbn [negb]. unfold erase_last_two. rewrite length_append.
  cbn [String.length].
  replace (2 <=? String.length s + 2)%nat with true
    by (symmetry; apply Nat.leb_le; lia).
  replace (String.length s + 2 - 2)%nat with (String.length s) by lia.
  now rewrite substring_append.
Qed.

(** X12: the listings of the log messages. [enumerateElementsStr] never
    throws and returns the elements separated by a comma and a space, with
    nothing after the last; [enumeratePlanningGroups] returns in the same
    way the names of the groups. *)
Theorem enumerate_spec :
  (forall val, enumerateElementsStr val = Ret (String.concat ", " val))
  /\ (forall move_groups,
         enumeratePlanningGroups move_groups
         = Ret (String.concat ", " (map getName move_groups))).
Proof.
  split.
  - intros val. unfold enumerateElementsStr, ostream_copy.
    rewrite (listing_fold (fun x => x)). cbn [String.append].
    apply listing_spec.
  - intros groups. unfold enumeratePlanningGroups.
    rewrite (listing_fold getName). cbn [String.append].
    rewrite <- (map_map getName (fun x => (x ++ ", ")%string)).
    apply listing_spec.
Qed.


(** ** The groups that are asked to plan *)

Lemma includes_sound l1 :
  forall l2, Std.includes l1 l2 = true -> forall x, In x l2 -> In x l1.
Proof.
  induction l1 as [|x l1 IH]; intros [|y l2] H z Hz; cbn [Std.includes] in H;
    try contradiction; try discriminate H.
  destruct (String.ltb y x) eqn:Eyx; [discriminate H|].
  destruct (String.ltb x y) eqn:Exy.
  - right. eapply IH; eauto.
  - assert (x = y).
    { destruct (name_trichotomy x y) as [Hn|[Hn|Hn]]; auto;
        unfold name_lt in Hn; congruence. }
    subst y. destruct Hz as [Hz|Hz]; [now left|right]. eapply IH; eauto.
Qed.

Lemma getValidMoveGroups_sound self groups min_group max_group g :
  planning_data_ self = map PlanningData_new groups ->
  In g (getValidMoveGroups self min_group max_group) ->
  (forall joint, In joint min_group -> In joint (getActiveJoints g))
  /\ (forall joint, In joint (getActiveJoints g) -> In joint max_group).
Proof.
  intros Hreg Hin. unfold getValidMoveGroups in Hin. rewrite Hreg in Hin.
  apply in_map_iff in Hin. destruct Hin as (d & <- & Hd).
  apply filter_In in Hd. destruct Hd as [Hd Hinc].
  apply in_map_iff in Hd. destruct Hd as (g & <- & _).
  cbn [PlanningData_new sorted_joint_names move_group] in *.
  apply andb_prop in Hinc. destruct Hinc as [Hmin Hmax].
  split; intros joint Hj.
  - rewrite <- sort_In. eapply includes_sound; [exact Hmin|].
    now rewrite sort_In.
  - rewrite <- sort_In. eapply includes_sound; [exact Hmax|].
    now rewrite sort_In.
Qed.

Lemma computeApproach_plan_groups moveit maxg maxv groups :
  forall traj log ok traj' log',
    computeApproach_plan moveit groups maxg maxv traj log = Ret (ok, traj', log') ->
    exists new, log' = log ++ new /\ Forall (fun e => In (group_of e) groups) new.
Proof.
  induction groups as [|g groups IH]; intros traj log ok traj' log' H;
    cbn in H.
  - injection H as <- <- <-. exists []. now rewrite app_nil_r.
  - inv_bind H. destruct x as [[ok1 traj1] log1].
    destruct (planApproach_calls _ _ _ _ _ _ _ _ _ E)
      as (calls & k & -> & _ & Hg & _).
    assert (Forall (fun e => In (group_of e) (g :: groups))
                   (SetStartStateToCurrentState g :: calls)) as Hnew1.
    { constructor; [now left|]. eapply Forall_impl; [|exact Hg].
      intros e <-. now left. }
    destruct ok1.
    + injection H as <- <- <-. eauto.
    + destruct (IH _ _ _ _ _ H) as (new2 & -> & Hnew2).
      exists ((SetStartStateToCurrentState g :: calls) ++ new2).
      rewrite app_assoc. split; [reflexivity|].
      apply Forall_app. split; [exact Hnew1|].
      eapply Forall_impl; [|exact Hnew2]. intros e He. now right.
Qed.

Lemma constructed_registry node new_move_group self :
  ApproachPlanner_new node new_move_group = Ret self ->
  exists groups, planning_data_ self = map PlanningData_new groups.
Proof.
  unfold ApproachPlanner_new. intros H.
  destruct (value_or (disable_motion_planning node) false).
  - injection H as <-. now exists [].
  - destruct (planning_groups node) as [names|]; [|discriminate H].
    rewrite registry_loop in H. inv_bind H. inv_bind E. injection E as <-.
    injection H as <-. cbn. eauto.
Qed.

(** X13: the groups that a constructed planner asks for a plan. Every
    call that [computeApproach] makes is on a move group that has all the
    joints that have to move, and only joints of the request that are not
    excluded from planning: a group with an excluded joint, or with a joint
    that the motion does not name, is never used. *)
Theorem computeApproach_groups_fit node new_move_group moveit self jn cur goal
        log ok traj log' maxg maxv ming
        (Hnew : ApproachPlanner_new node new_move_group = Ret self)
        (Hgroups : computeApproach_groups self jn cur goal
                   = Ret (maxg, maxv, ming))
        (Hrun : computeApproach moveit self jn cur goal log
                = Ret (ok, traj, log')) :
  exists new, log' = log ++ new /\ Forall (group_fits self jn ming) new.
Proof.
  destruct (constructed_registry _ _ _ Hnew) as [groups Hreg].
  pose proof (computeApproach_groups_allowed _ _ _ _ _ _ _ Hgroups) as Hmax.
  rewrite Forall_forall in Hmax.
  unfold computeApproach in Hrun. rewrite Hgroups in Hrun. cbn [bind] in Hrun.
  destruct (Std.empty ming).
  { injection Hrun as <- <- <-. exists []. now rewrite app_nil_r. }
  destruct (Std.empty (getValidMoveGroups self ming maxg)).
  { injection Hrun as <- <- <-. exists []. now rewrite app_nil_r. }
  destruct (computeApproach_plan_groups _ _ _ _ _ _ _ _ _ Hrun)
    as (new & -> & Hnewg).
  exists new. split; [reflexivity|].
  eapply Forall_impl; [|exact Hnewg]. intros e He.
  destruct (getValidMoveGroups_sound _ _ _ _ _ Hreg He) as [Hmin Hsub].
  split; [exact Hmin|]. intros joint Hj. apply Hmax. now apply Hsub.
Qed.

Lemma computeApproach_groups_fit_witness :
  exists self traj new,
    ApproachPlanner_new arm_node arm_move_group = Ret self
    /\ computeApproach permissive_moveit self ["j1"; "jx"]
                       [0%float; 0%float] [1%float; 1%float] []
       = Ret (true, traj, new)
    /\ Forall (group_fits self ["j1"; "jx"] ["j1"]) new
    /\ map group_of new = [arm; arm; arm].
Proof.
  destruct (ApproachPlanner_new arm_node arm_move_group) as [self|] eqn:Hnew;
    [|discriminate Hnew].
  destruct (computeApproach permissive_moveit self ["j1"; "jx"]
              [0%float; 0%float] [1%float; 1%float] [])
    as [[[ok traj] log']|] eqn:Hrun;
    [|injection Hnew as <-; vm_compute in Hrun; discriminate Hrun].
  assert (computeApproach_groups self ["j1"; "jx"] [0%float; 0%float]
            [1%float; 1%float] = Ret (["j1"], [1%float], ["j1"])) as Hgroups.
  { injection Hnew as <-. reflexivity. }
  destruct (computeApproach_groups_fit _ _ _ _ _ _ _ _ _ _ _ _ _ _
              Hnew Hgroups Hrun) as (new & Hlog & Hfit).
  cbn [app] in Hlog. subst log'.
  exists self, traj, new. split; [reflexivity|].
  injection Hnew as <-. vm_compute in Hrun. injection Hrun as <- <- <-.
  split; [reflexivity|]. split; [exact Hfit|reflexivity].
Defined.

(** ** The calls of an attempt *)

Lemma planApproach_goal_protocol moveit jn jv g count :
  forall first log ok log',
    planApproach_goal moveit jn jv g count first log = Ret (ok, log') ->
    let goals := skipn first (combine jn jv) in
    (ok = true
     /\ log' = log ++ accepted_goals g (firstn count goals)
     /\ (count <= List.length goals)%nat)
    \/ (ok = false
        /\ exists k joint value,
            (k < count)%nat
            /\ nth_error goals k = Some (joint, value)
            /\ log' = log ++ accepted_goals g (firstn k goals)
                          ++ [SetJointValueTarget g joint value false]).
Proof.
  induction count as [|count IH]; intros first log ok log' H; cbn in H.
  - injection H as <- <-. left. cbn. rewrite app_nil_r.
    repeat split; auto. lia.
  - inv_bind H. inv_bind H. apply at_Ret in E, E0.
    pose proof (nth_error_combine _ _ _ _ _ E E0) as Hnth.
    pose proof (skipn_nth_error _ _ _ Hnth) as Hskip.
    cbv zeta. rewrite Hskip.
    destruct (setJointValueTarget moveit log g x x0) eqn:Hset.
    + apply IH in H. cbv zeta in H.
      destruct H as [(-> & -> & Hlen)|(-> & k & joint & value & Hk & Hn & ->)].
      * left. split; [reflexivity|]. split.
        -- cbn [firstn accepted_goals map fst snd].
           now rewrite <- app_assoc.
        -- cbn [List.length]. lia.
      * right. split; [reflexivity|]. exists (S k), joint, value.
        split; [lia|]. split; [exact Hn|].
        cbn [firstn accepted_goals map fst snd]. now rewrite <- !app_assoc.
    + injection H as <- <-. right. split; [reflexivity|].
      exists 0%nat, x, x0. split; [lia|]. split; [reflexivity|].
      reflexivity.
Qed.

(** X14: the calls of one planning attempt. [planApproach] sets the start
    state, then asks for the goals of the joints in order. When the group
    accepts them all it calls [plan] once, last, and the attempt succeeds
    exactly when [plan] answers SUCCESS with a trajectory that has a
    waypoint, which is then the approach. When the group refuses a goal the
    attempt stops there: the goals after it are not asked for and [plan]
    is not called. A failed attempt leaves the approach as it was. *)
Theorem planApproach_protocol moveit jn jv g traj log ok traj' log'
        (Hrun : planApproach moveit jn jv g traj log = Ret (ok, traj', log')) :
  (exists code planned,
      log' = log ++ SetStartStateToCurrentState g
                 :: accepted_goals g (combine jn jv) ++ [Plan g code planned]
      /\ (ok = true <->
          code = SUCCESS /\ JointTrajectory.points planned <> [])
      /\ traj' = (if ok then planned else traj))
  \/ (exists k joint value,
         nth_error (combine jn jv) k = Some (joint, value)
         /\ log' = log ++ SetStartStateToCurrentState g
                       :: accepted_goals g (firstn k (combine jn jv))
                       ++ [SetJointValueTarget g joint value false]
         /\ ok = false /\ traj' = traj).
Proof.
  unfold planApproach in Hrun. inv_bind Hrun. destruct x as [goal_ok log1].
  apply planApproach_goal_protocol in E. cbv zeta in E. cbn [skipn] in E.
  destruct E as [(-> & -> & Hlen)|(-> & k & joint & value & Hk & Hn & ->)].
  - left. cbn [negb] in Hrun.
    rewrite firstn_all2 in Hrun
      by (rewrite length_combine in *; lia).
    destruct (plan moveit _ g) as [code planned] eqn:Hplan.
    exists code, planned.
    destruct (code =? SUCCESS) eqn:Hcode; cbn [negb] in Hrun.
    + apply Z.eqb_eq in Hcode.
      destruct (Std.empty (JointTrajectory.points planned)) eqn:Hemp;
        injection Hrun as <- <- <-.
      * split; [now rewrite <- !app_assoc|]. split; [|reflexivity].
        split; [discriminate|]. intros [_ Hne].
        destruct (JointTrajectory.points planned); [contradiction|discriminate].
      * split; [now rewrite <- !app_assoc|]. split; [|reflexivity].
        split; [|reflexivity]. intros _. split; [exact Hcode|].
        now apply empty_false_iff.
    + injection Hrun as <- <- <-.
      split; [now rewrite <- !app_assoc|]. split; [|reflexivity].
      split; [discriminate|]. intros [Hc _]. apply Z.eqb_neq in Hcode.
      contradiction.
  - right. cbn [negb] in Hrun. injection Hrun as <- <- <-.
    exists k, joint, value. split; [exact Hn|].
    split; [now rewrite <- !app_assoc|]. auto.
Qed.

Lemma planApproach_protocol_witness :
  exists code planned,
    planApproach permissive_moveit ["j1"] [1%float] arm
                 (JointTrajectory.mk [] []) []
    = Ret (true, planned,
           SetStartStateToCurrentState arm
             :: accepted_goals arm [("j1", 1%float)] ++ [Plan arm code planned])
    /\ code = SUCCESS.
Proof.
  destruct (planApproach permissive_moveit ["j1"] [1%float] arm
              (JointTrajectory.mk [] []) [])
    as [[[ok traj'] log']|] eqn:Hrun; [|vm_compute in Hrun; discriminate Hrun].
  assert (ok = true) as ->.
  { vm_compute in Hrun. now injection Hrun as <- _ _. }
  destruct (planApproach_protocol _ _ _ _ _ _ _ _ _ Hrun)
    as [(code & planned & Hlog & Hiff & Htraj)
       |(k & joint & value & _ & _ & Hok & _)]; [|discriminate Hok].
  exists code, planned. subst traj' log'. split; [reflexivity|].
  now apply Hiff.
Defined.

(** ** A velocity of zero *)






(** ** [RRBotSystem] *)

Import hardware_interface.

Lemma configure_joints_spec joints :
  exists r,
    RRBotSystem.configure_joints joints = Ret r
    /\ (r = OK <-> forallb RRBotSystem_accepted joints = true).
Proof.
  induction joints as [|joint joints IH]; cbn.
  - exists OK. split; [reflexivity|]. tauto.
  - unfold RRBotSystem_accepted at 1.
    destruct (ComponentInfo.command_interfaces joint) as [|c [|c' cs]]; cbn.
    + exists ERROR. split; [reflexivity|]. split; intros Habs; discriminate Habs.
    + destruct (String.eqb (InterfaceInfo.name c) HW_IF_POSITION); cbn.
      * destruct (ComponentInfo.state_interfaces joint) as [|s [|s' ss]]; cbn.
        -- exists ERROR. split; [reflexivity|]. split; intros Habs; discriminate Habs.
        -- destruct (String.eqb (InterfaceInfo.name s) HW_IF_POSITION); cbn.
           ++ exact IH.
           ++ cbn. exists ERROR. split; [reflexivity|]. split; intros Habs; discriminate Habs.
        -- exists ERROR. split; [reflexivity|]. split; intros Habs; discriminate Habs.
      * exists ERROR. split; [reflexivity|].
        split; intros Habs; [discriminate Habs|].
        destruct (ComponentInfo.state_interfaces joint) as [|s [|s' ss]];
          discriminate Habs.
    + exists ERROR. split; [reflexivity|]. split; intros Habs; discriminate Habs.
Qed.

Lemma length_resize {A : Type} (v : list A) (n : nat) (a : A) :
  List.length (Std.resize v n a) = n.
Proof.
  unfold Std.resize. rewrite length_app, length_firstn, repeat_length. lia.
Qed.

Lemma configure_sizes configure_default info self self' :
  RRBotSystem.configure configure_default info self = Ret (OK, self') ->
  let size := List.length (HardwareInfo.joints (RRBotSystem.info_ self')) in
  List.length (RRBotSystem.position_states_ self') = size
  /\ List.length (RRBotSystem.velocity_states_ self') = size
  /\ List.length (RRBotSystem.position_commands_ self') = size.
Proof.
  unfold RRBotSystem.configure.
  destruct (configure_default info self) as [default_ok self0].
  destruct default_ok; [|discriminate].
  intros H. inv_bind H. destruct x; [|discriminate H].
  injection H as <-. cbn. now rewrite !length_resize.
Qed.

(** X16: [configure] never runs into undefined behaviour. It answers OK
    exactly when [configure_default] does and every joint of the hardware
    description has one command interface and one state interface, both
    named [position]; the status is then CONFIGURED. Whenever
    [configure_default] answers OK, the three vectors are left with one slot
    per joint, and a vector that was empty is filled with NaN. *)
Theorem RRBotSystem_configure_spec configure_default info self :
  let default_ok := fst (configure_default info self) in
  let self0 := snd (configure_default info self) in
  let joints := HardwareInfo.joints (RRBotSystem.info_ self0) in
  exists r self',
    RRBotSystem.configure configure_default info self = Ret (r, self')
    /\ (r = OK <->
        default_ok = OK /\ forallb RRBotSystem_accepted joints = true)
    /\ (r = OK -> RRBotSystem.status_ self' = CONFIGURED)
    /\ (r = ERROR -> RRBotSystem.status_ self' = RRBotSystem.status_ self0)
    /\ RRBotSystem.info_ self' = RRBotSystem.info_ self0
    /\ (default_ok = OK ->
        List.length (RRBotSystem.position_states_ self') = List.length joints
        /\ List.length (RRBotSystem.velocity_states_ self') = List.length joints
        /\ List.length (RRBotSystem.position_commands_ self')
           = List.length joints
        /\ (RRBotSystem.position_states_ self0 = [] ->
            RRBotSystem.position_states_ self'
            = repeat nan (List.length joints))
        /\ (RRBotSystem.velocity_states_ self0 = [] ->
            RRBotSystem.velocity_states_ self'
            = repeat nan (List.length joints))
        /\ (RRBotSystem.position_commands_ self0 = [] ->
            RRBotSystem.position_commands_ self'
            = repeat nan (List.length joints))).
Proof.
  cbv zeta. unfold RRBotSystem.configure.
  destruct (configure_default info self) as [default_ok self0]. cbn [fst snd].
  destruct default_ok.
  - cbn [RRBotSystem.info_ RRBotSystem.set_position_commands_
         RRBotSystem.set_velocity_states_ RRBotSystem.set_position_states_].
    destruct (configure_joints_spec
                (HardwareInfo.joints (RRBotSystem.info_ self0)))
      as (r & Hr & Hiff).
    rewrite Hr. cbn [bind].
    assert (forall v : list float,
               v = [] ->
               Std.resize v
                 (List.length (HardwareInfo.joints (RRBotSystem.info_ self0)))
                 nan
               = repeat nan
                   (List.length (HardwareInfo.joints (RRBotSystem.info_ self0))))
      as Hfresh.
    { intros v ->. unfold Std.resize. rewrite firstn_nil. cbn.
      now rewrite Nat.sub_0_r. }
    destruct r; eexists _, _; (split; [reflexivity|]); cbn;
      rewrite !length_resize; repeat split; auto; try tauto; try discriminate.
  - exists ERROR, self0. split; [reflexivity|].
    repeat split; auto; try discriminate. intros [H _]. discriminate H.
Qed.

Lemma RRBotSystem_configure_spec_witness :
  exists configured,
    RRBotSystem.configure storing_configure_default rrbot_info rrbot_fresh
    = Ret (OK, configured)
    /\ RRBotSystem.status_ configured = CONFIGURED
    /\ RRBotSystem.position_states_ configured = [nan; nan]
    /\ RRBotSystem.position_commands_ configured = [nan; nan].
Proof.
  destruct (RRBotSystem_configure_spec storing_configure_default rrbot_info
              rrbot_fresh)
    as (r & configured & Hrun & Hiff & Hstatus & _ & _ & Hsizes).
  cbv zeta in Hiff, Hsizes. cbn [fst snd storing_configure_default] in Hiff, Hsizes.
  assert (r = OK) as -> by (apply Hiff; split; reflexivity).
  exists configured. split; [exact Hrun|]. split; [now apply Hstatus|].
  destruct (Hsizes eq_refl) as (_ & _ & _ & Hp & _ & Hc).
  split; [exact (Hp eq_refl)|exact (Hc eq_refl)].
Defined.

Lemma at_middle {A : Type} (l1 l2 : list A) (x : A) :
  Std.at_ (l1 ++ x :: l2) (List.length l1) = Ret x.
Proof.
  unfold Std.at_. rewrite nth_error_app2 by lia.
  now rewrite Nat.sub_diag.
Qed.

Lemma start_loop info st rest_ps :
  forall rest_vs rest_pc a_ps a_vs a_pc,
    List.length a_vs = List.length a_ps ->
    List.length a_pc = List.length a_ps ->
    List.length rest_vs = List.length rest_ps ->
    List.length rest_pc = List.length rest_ps ->
    Std.for_loop (List.length rest_ps) (List.length a_ps)
      RRBotSystem.start_joint
      (RRBotSystem.mk info st (a_pc ++ rest_pc) (a_ps ++ rest_ps)
                      (a_vs ++ rest_vs))
    = Ret (RRBotSystem.mk info st
             (a_pc ++ map RRBotSystem_started rest_ps)
             (a_ps ++ map RRBotSystem_started rest_ps)
             (a_vs ++ map RRBotSystem_started_velocity
                          (combine rest_ps rest_vs))).
Proof.
  induction rest_ps as [|p rest_ps IH];
    intros [|v rest_vs] [|c rest_pc] a_ps a_vs a_pc Hvs Hpc Hrv Hrc;
    try discriminate Hrv; try discriminate Hrc.
  - reflexivity.
  - cbn [List.length Std.for_loop]. unfold RRBotSystem.start_joint at 1.
    cbn [RRBotSystem.position_states_ RRBotSystem.velocity_states_
         RRBotSystem.position_commands_ RRBotSystem.set_position_states_
         RRBotSystem.set_velocity_states_ RRBotSystem.set_position_commands_
         RRBotSystem.info_ RRBotSystem.status_].
    rewrite at_middle. cbn [bind].
    assert (forall (a r : list float) (x y : float),
               List.length a = List.length a_ps ->
               Std.assign (a ++ x :: r) (List.length a_ps) y
               = Ret (a ++ y :: r)) as Hassign.
    { intros a r x y <-. apply assign_middle. }
    injection Hrv as Hrv. injection Hrc as Hrc.
    assert (Std.for_loop (List.length rest_ps) (S (List.length a_ps))
              RRBotSystem.start_joint
              (RRBotSystem.mk info st
                 (a_pc ++ RRBotSystem_started p :: rest_pc)
                 (a_ps ++ RRBotSystem_started p :: rest_ps)
                 (a_vs ++ RRBotSystem_started_velocity (p, v) :: rest_vs))
            = Ret (RRBotSystem.mk info st
                     (a_pc ++ map RRBotSystem_started (p :: rest_ps))
                     (a_ps ++ map RRBotSystem_started (p :: rest_ps))
                     (a_vs ++ map RRBotSystem_started_velocity
                                  (combine (p :: rest_ps) (v :: rest_vs)))))
      as Hrest.
    { specialize (IH rest_vs rest_pc (a_ps ++ [RRBotSystem_started p])
                     (a_vs ++ [RRBotSystem_started_velocity (p, v)])
                     (a_pc ++ [RRBotSystem_started p])).
      rewrite !length_app in IH. cbn [List.length] in IH.
      rewrite !Nat.add_1_r in IH. rewrite <- !app_assoc in IH.
      cbn [app] in IH. apply IH; auto; lia. }
    destruct (is_nan p) eqn:Hnan.
    + assert (RRBotSystem_started p = 0%float) as Hs
        by (unfold RRBotSystem_started; now rewrite Hnan).
      assert (RRBotSystem_started_velocity (p, v) = 0%float) as Hv
        by (unfold RRBotSystem_started_velocity; cbn [fst]; now rewrite Hnan).
      rewrite Hs, Hv in Hrest.
      rewrite (Hassign a_ps) by reflexivity. cbn [bind].
      rewrite (Hassign a_vs) by exact Hvs. cbn [bind].
      rewrite (Hassign a_pc) by exact Hpc. cbn [bind].
      exact Hrest.
    + assert (RRBotSystem_started p = p) as Hs
        by (unfold RRBotSystem_started; now rewrite Hnan).
      assert (RRBotSystem_started_velocity (p, v) = v) as Hv
        by (unfold RRBotSystem_started_velocity; cbn [fst snd];
            now rewrite Hnan).
      rewrite Hs, Hv in Hrest.
      rewrite (Hassign a_pc) by exact Hpc. cbn [bind].
      exact Hrest.
Qed.

Lemma started_not_nan p : is_nan (RRBotSystem_started p) = false.
Proof.
  unfold RRBotSystem_started. destruct (is_nan p) eqn:H; [reflexivity|exact H].
Qed.

(** X17: [start] on a system whose three vectors have one size. It
    answers OK and the status is STARTED; a position that was NaN is 0 and
    the others are kept, so no position is NaN; every command is the
    position of its joint; the velocity of a joint whose position was NaN is
    0 and the others are kept. On vectors of NaN, as [configure] leaves
    them in a new system, everything is 0. *)
Theorem RRBotSystem_start_spec self
        (Hvel : List.length (RRBotSystem.velocity_states_ self)
                = List.length (RRBotSystem.position_states_ self))
        (Hcmd : List.length (RRBotSystem.position_commands_ self)
                = List.length (RRBotSystem.position_states_ self)) :
  exists self',
    RRBotSystem.start self = Ret (OK, self')
    /\ RRBotSystem.status_ self' = STARTED
    /\ RRBotSystem.info_ self' = RRBotSystem.info_ self
    /\ RRBotSystem.position_states_ self'
       = map RRBotSystem_started (RRBotSystem.position_states_ self)
    /\ RRBotSystem.position_commands_ self' = RRBotSystem.position_states_ self'
    /\ RRBotSystem.velocity_states_ self'
       = map RRBotSystem_started_velocity
             (combine (RRBotSystem.position_states_ self)
                      (RRBotSystem.velocity_states_ self))
    /\ Forall (fun p => is_nan p = false) (RRBotSystem.position_states_ self')
    /\ (forall n,
           RRBotSystem.position_states_ self = repeat nan n ->
           RRBotSystem.position_states_ self' = repeat 0%float n
           /\ RRBotSystem.velocity_states_ self' = repeat 0%float n
           /\ RRBotSystem.position_commands_ self' = repeat 0%float n).
Proof.
  destruct self as [info st pc ps vs]. cbn in Hvel, Hcmd.
  unfold RRBotSystem.start.
  cbn [RRBotSystem.position_states_ RRBotSystem.velocity_states_
       RRBotSystem.position_commands_ RRBotSystem.info_].
  pose proof (start_loop info st ps vs pc [] [] [] eq_refl eq_refl Hvel Hcmd)
    as Hloop.
  cbn [app List.length] in Hloop. rewrite Hloop. cbn [bind].
  eexists. split; [reflexivity|].
  cbn [RRBotSystem.set_status_ RRBotSystem.position_states_
       RRBotSystem.velocity_states_ RRBotSystem.position_commands_
       RRBotSystem.info_ RRBotSystem.status_].
  repeat (split; [reflexivity|]). split.
  - apply Forall_forall. intros p Hp. apply in_map_iff in Hp.
    destruct Hp as (q & <- & _). apply started_not_nan.
  - intros n ->. rewrite repeat_length in Hvel.
    assert (map RRBotSystem_started (repeat nan n) = repeat 0%float n) as Hps.
    { clear. induction n; cbn; [reflexivity|]. now rewrite IHn. }
    split; [exact Hps|]. split; [|exact Hps].
    clear - Hvel. revert vs Hvel. induction n as [|n IH]; intros [|v vs] Hvel;
      try discriminate Hvel; [reflexivity|].
    cbn. f_equal. apply IH. now injection Hvel.
Qed.

Lemma RRBotSystem_start_spec_witness :
  exists configured started,
    RRBotSystem.configure storing_configure_default rrbot_info rrbot_fresh
    = Ret (OK, configured)
    /\ RRBotSystem.start configured = Ret (OK, started)
    /\ RRBotSystem.position_states_ started = [0%float; 0%float]
    /\ RRBotSystem.velocity_states_ started = [0%float; 0%float]
    /\ RRBotSystem.position_commands_ started = [0%float; 0%float].
Proof.
  eexists. 
  destruct (RRBotSystem_start_spec
              (RRBotSystem.mk rrbot_info CONFIGURED [nan; nan] [nan; nan]
                              [nan; nan]) eq_refl eq_refl)
    as (started & Hstart & _ & _ & _ & _ & _ & _ & Hfresh).
  exists started. split; [reflexivity|]. split; [exact Hstart|].
  exact (Hfresh 2%nat eq_refl).
Defined.

Lemma read_loop info st rest_ps :
  forall rest_vs rest_pc a_ps a_vs a_pc,
    List.length a_vs = List.length a_ps ->
    List.length a_pc = List.length a_ps ->
    List.length rest_vs = List.length rest_ps ->
    List.length rest_pc = List.length rest_ps ->
    Std.for_loop (List.length rest_ps) (List.length a_ps)
      RRBotSystem.read_joint
      (RRBotSystem.mk info st (a_pc ++ rest_pc) (a_ps ++ rest_ps)
                      (a_vs ++ rest_vs))
    = Ret (RRBotSystem.mk info st (a_pc ++ rest_pc) (a_ps ++ rest_pc)
             (a_vs ++ repeat 0%float (List.length rest_ps))).
Proof.
  induction rest_ps as [|p rest_ps IH];
    intros [|v rest_vs] [|c rest_pc] a_ps a_vs a_pc Hvs Hpc Hrv Hrc;
    try discriminate Hrv; try discriminate Hrc.
  - reflexivity.
  - cbn [List.length Std.for_loop]. unfold RRBotSystem.read_joint at 1.
    cbn [RRBotSystem.position_states_ RRBotSystem.velocity_states_
         RRBotSystem.position_commands_ RRBotSystem.set_position_states_
         RRBotSystem.set_velocity_states_ RRBotSystem.set_position_commands_
         RRBotSystem.info_ RRBotSystem.status_].
    assert (forall (a r : list float) (x y : float),
               List.length a = List.length a_ps ->
               Std.assign (a ++ x :: r) (List.length a_ps) y
               = Ret (a ++ y :: r)) as Hassign.
    { intros a r x y <-. apply assign_middle. }
    assert (Std.at_ (a_pc ++ c :: rest_pc) (List.length a_ps) = Ret c) as Hat.
    { rewrite <- Hpc. apply at_middle. }
    rewrite Hat. cbn [bind].
    rewrite (Hassign a_ps) by reflexivity. cbn [bind].
    rewrite (Hassign a_vs) by exact Hvs. cbn [bind].
    injection Hrv as Hrv. injection Hrc as Hrc.
    specialize (IH rest_vs rest_pc (a_ps ++ [c]) (a_vs ++ [0%float])
                   (a_pc ++ [c])).
    rewrite !length_app in IH. cbn [List.length] in IH.
    rewrite !Nat.add_1_r in IH. rewrite <- !app_assoc in IH.
    cbn [app] in IH.
    unfold RRBotSystem.set_velocity_states_, RRBotSystem.set_position_states_.
    cbn [RRBotSystem.position_states_ RRBotSystem.velocity_states_
         RRBotSystem.position_commands_ RRBotSystem.info_ RRBotSystem.status_].
    rewrite IH by (auto; lia). reflexivity.
Qed.

(** X18: [read] on a system whose three vectors have one size answers OK
    and makes the state follow the commands at once: every position is the
    command of its joint and every velocity is 0; the commands, the status
    and the description of the hardware are kept. The call of [write]
    before it changes nothing. *)
Theorem RRBotSystem_read_spec self
        (Hvel : List.length (RRBotSystem.velocity_states_ self)
                = List.length (RRBotSystem.position_states_ self))
        (Hcmd : List.length (RRBotSystem.position_commands_ self)
                = List.length (RRBotSystem.position_states_ self)) :
  RRBotSystem.read (snd (RRBotSystem.write self))
  = Ret (OK,
         RRBotSystem.mk (RRBotSystem.info_ self) (RRBotSystem.status_ self)
           (RRBotSystem.position_commands_ self)
           (RRBotSystem.position_commands_ self)
           (repeat 0%float (List.length (RRBotSystem.position_commands_ self)))).
Proof.
  destruct self as [info st pc ps vs]. cbn in Hvel, Hcmd.
  unfold RRBotSystem.read, RRBotSystem.write. cbn [snd].
  cbn [RRBotSystem.position_states_ RRBotSystem.velocity_states_
       RRBotSystem.position_commands_ RRBotSystem.info_ RRBotSystem.status_].
  pose proof (read_loop info st ps vs pc [] [] [] eq_refl eq_refl Hvel Hcmd)
    as Hloop.
  cbn [app List.length] in Hloop. rewrite Hloop. cbn [bind].
  now rewrite Hcmd.
Qed.

Lemma RRBotSystem_read_spec_witness :
  RRBotSystem.read
    (RRBotSystem.mk rrbot_info STARTED [1%float; 2%float] [0%float; 0%float]
                    [5%float; 5%float])
  = Ret (OK,
         RRBotSystem.mk rrbot_info STARTED [1%float; 2%float]
                        [1%float; 2%float] [0%float; 0%float]).
Proof.
  apply (RRBotSystem_read_spec
           (RRBotSystem.mk rrbot_info STARTED [1%float; 2%float]
                           [0%float; 0%float] [5%float; 5%float])
           eq_refl eq_refl).
Defined.

Lemma export_state_loop self count :
  forall first acc,
    (first + count <= List.length (HardwareInfo.joints (RRBotSystem.info_ self)))%nat ->
    (first + count <= List.length (RRBotSystem.position_states_ self))%nat ->
    (first + count <= List.length (RRBotSystem.velocity_states_ self))%nat ->
    Std.for_loop count first (RRBotSystem.export_state_interfaces_joint self) acc
    = Ret (acc ++ flat_map RRBotSystem_state_handles
                     (combine (seq first count)
                        (skipn first
                           (HardwareInfo.joints (RRBotSystem.info_ self))))).
Proof.
  induction count as [|count IH]; intros first acc Hj Hp Hv.
  - cbn. now rewrite app_nil_r.
  - cbn [Std.for_loop seq].
    unfold RRBotSystem.export_state_interfaces_joint at 1.
    destruct (at_lt (HardwareInfo.joints (RRBotSystem.info_ self)) first)
      as [joint Hjoint]; [lia|].
    destruct (at_lt (RRBotSystem.position_states_ self) first) as [p Hpos];
      [lia|].
    destruct (at_lt (RRBotSystem.velocity_states_ self) first) as [v Hvelo];
      [lia|].
    rewrite Hjoint, Hpos, Hvelo. cbn [bind].
    rewrite IH by lia. apply at_Ret in Hjoint.
    rewrite (skipn_nth_error _ _ _ Hjoint).
    cbn [combine flat_map]. unfold Std.push_back.
    rewrite <- !app_assoc. reflexivity.
Qed.

Lemma export_command_loop self count :
  forall first acc,
    (first + count <= List.length (HardwareInfo.joints (RRBotSystem.info_ self)))%nat ->
    (first + count <= List.length (RRBotSystem.position_commands_ self))%nat ->
    Std.for_loop count first (RRBotSystem.export_command_interfaces_joint self) acc
    = Ret (acc ++ map RRBotSystem_command_handle
                     (combine (seq first count)
                        (skipn first
                           (HardwareInfo.joints (RRBotSystem.info_ self))))).
Proof.
  induction count as [|count IH]; intros first acc Hj Hp.
  - cbn. now rewrite app_nil_r.
  - cbn [Std.for_loop seq].
    unfold RRBotSystem.export_command_interfaces_joint at 1.
    destruct (at_lt (HardwareInfo.joints (RRBotSystem.info_ self)) first)
      as [joint Hjoint]; [lia|].
    destruct (at_lt (RRBotSystem.position_commands_ self) first) as [p Hpos];
      [lia|].
    rewrite Hjoint, Hpos. cbn [bind].
    rewrite IH by lia. apply at_Ret in Hjoint.
    rewrite (skipn_nth_error _ _ _ Hjoint).
    cbn [combine map]. unfold Std.push_back.
    rewrite <- !app_assoc. reflexivity.
Qed.

(** X19: the interfaces that a configured system exports. After a call of
    [configure] that answered OK, [export_state_interfaces] returns, joint
    by joint in the order of the description, the position interface then
    the velocity interface of the joint, and [export_command_interfaces] the
    position interface of each joint; each one is named after the joint and
    points to the slot of the index of the joint. *)
Theorem RRBotSystem_export_spec configure_default info self self'
        (Hconf : RRBotSystem.configure configure_default info self
                 = Ret (OK, self')) :
  let joints := HardwareInfo.joints (RRBotSystem.info_ self') in
  let indexed := combine (seq 0 (List.length joints)) joints in
  RRBotSystem.export_state_interfaces self'
  = Ret (flat_map RRBotSystem_state_handles indexed)
  /\ RRBotSystem.export_command_interfaces self'
     = Ret (map RRBotSystem_command_handle indexed).
Proof.
  cbv zeta.
  destruct (configure_sizes _ _ _ _ Hconf) as (Hp & Hv & Hc).
  split.
  - unfold RRBotSystem.export_state_interfaces.
    rewrite export_state_loop by (cbn; lia). reflexivity.
  - unfold RRBotSystem.export_command_interfaces.
    rewrite export_command_loop by (cbn; lia). reflexivity.
Qed.

Lemma RRBotSystem_export_spec_witness :
  exists configured,
    RRBotSystem.configure storing_configure_default rrbot_info rrbot_fresh
    = Ret (OK, configured)
    /\ RRBotSystem.export_state_interfaces configured
       = Ret [RRBotSystem.mkHandle "joint1" "position"
                                   (RRBotSystem.position_states_at 0);
              RRBotSystem.mkHandle "joint1" "velocity"
                                   (RRBotSystem.velocity_states_at 0);
              RRBotSystem.mkHandle "joint2" "position"
                                   (RRBotSystem.position_states_at 1);
              RRBotSystem.mkHandle "joint2" "velocity"
                                   (RRBotSystem.velocity_states_at 1)]
    /\ RRBotSystem.export_command_interfaces configured
       = Ret [RRBotSystem.mkHandle "joint1" "position"
                                   (RRBotSystem.position_commands_at 0);
              RRBotSystem.mkHandle "joint2" "position"
                                   (RRBotSystem.position_commands_at 1)].
Proof.
  eexists. split; [reflexivity|].
  exact (RRBotSystem_export_spec storing_configure_default rrbot_info
           rrbot_fresh _ eq_refl).
Defined.

(** ** [MoveJointGroup] *)

Lemma configure_names_spec values :
  forall self,
    MoveJointGroup.configure_names values self
    = MoveJointGroup.set_joint_names_ self
        (MoveJointGroup.joint_names_ self ++ leading_strings values).
Proof.
  induction values as [|value values IH]; intros self.
  - cbn. rewrite app_nil_r. now destruct self.
  - destruct value; cbn [MoveJointGroup.configure_names leading_strings];
      try (rewrite app_nil_r; now destruct self).
    rewrite IH. unfold MoveJointGroup.set_joint_names_, Std.push_back. cbn.
    now rewrite <- app_assoc.
Qed.

Lemma leading_strings_all names :
  leading_strings (map XmlRpc.TypeString names) = names.
Proof. induction names as [|n names IH]; cbn; [reflexivity|now rewrite IH]. Qed.

(** X20: [configure] of a controller. Without a connection to the action
    server it keeps the joints and arms the timer that calls it again. With
    a connection the joints it had are dropped, and the controller has the
    names of the array of the parameter [joints] up to its first element
    that is not a string: all of them, in order, for an array of strings,
    and none when the parameter is missing or is not an array. Nothing is
    sent to the controller. [isControllingJoint] then answers true exactly
    for these names, as long as the server is connected. *)
Theorem MoveJointGroup_configure_spec param self :
  MoveJointGroup.configure false param self
  = MoveJointGroup.mk (MoveJointGroup.controller_name_ self)
                      (MoveJointGroup.joint_names_ self) true
                      (MoveJointGroup.client_ self)
  /\ MoveJointGroup.configure true param self
     = MoveJointGroup.set_joint_names_ self
         match param with
         | Some (XmlRpc.TypeArray values) => leading_strings values
         | _ => []
         end
  /\ (forall names,
         MoveJointGroup.joint_names_
           (MoveJointGroup.configure true
              (Some (XmlRpc.TypeArray (map XmlRpc.TypeString names))) self)
         = names)
  /\ (forall connected joint_name,
         MoveJointGroup.isControllingJoint connected joint_name
           (MoveJointGroup.configure true param self) = true
         <-> connected = true
             /\ In joint_name
                   match param with
                   | Some (XmlRpc.TypeArray values) => leading_strings values
                   | _ => []
                   end).
Proof.
  assert (MoveJointGroup.configure true param self
          = MoveJointGroup.set_joint_names_ self
              match param with
              | Some (XmlRpc.TypeArray values) => leading_strings values
              | _ => []
              end) as Hconf.
  { unfold MoveJointGroup.configure. cbn [negb].
    destruct param as [[| | | | |values]|]; try reflexivity.
    rewrite configure_names_spec. reflexivity. }
  split; [reflexivity|]. split; [exact Hconf|]. split.
  - intros names.
    unfold MoveJointGroup.configure. cbn [negb].
    rewrite configure_names_spec. cbn. apply leading_strings_all.
  - intros connected joint_name. rewrite Hconf.
    unfold MoveJointGroup.isControllingJoint.
    cbn [MoveJointGroup.joint_names_ MoveJointGroup.set_joint_names_].
    destruct connected; cbn [negb].
    + rewrite existsb_exists. split.
      * intros (jn & Hin & Heq). apply String.eqb_eq in Heq. subst. auto.
      * intros [_ Hin]. exists joint_name. split; [exact Hin|].
        apply String.eqb_refl.
    + split; [discriminate|]. intros [H _]. discriminate H.
Qed.




